(** * ModelCanvas: a shallow embedding of the viewer's rendering pipeline

    The development follows [src/ModelCanvas.tsx]: the [ModelErrorBoundary]
    class, the texture and sticker load effects of [Model], the material
    patch effect, the texture-change effect, the per-frame callback, the
    auto-frame effect and the decal that [Model] renders.

    Conventions.
    - JavaScript numbers are modelled as exact rationals ([Q]); [Math.min],
      [Math.max], [/] and [*] are the exact operations.  Numeric results are
      therefore stated up to [==] on [Q] and say nothing about rounding.
    - three.js objects have identity: textures, materials and meshes are
      named by a [nat]; the mutable material objects live in a heap
      ([gmap MaterialId Material]) that the effects thread through.
    - a nullish JavaScript value ([null] or [undefined]) is [None]. *)

From Stdlib Require Import QArith Qminmax Lqa Lia.
From stdpp Require Import base option list gmap strings pretty.

Set Warnings "-register-all".
Local Open Scope string_scope.

(** ** Identities of three.js objects *)

Definition TextureId := nat.
Definition MaterialId := nat.
Definition MeshId := nat.

(** [a ?? b] of JavaScript on a nullable value. *)
Definition nullish {A} (a : option A) (b : A) : A :=
  match a with Some x => x | None => b end.

(** Truthiness of a nullable string ([!textureUrl] is true for [null],
    [undefined] and the empty string). *)
Definition truthy_url (u : option string) : bool :=
  match u with
  | None => false
  | Some s => negb (String.eqb s "")
  end.

(** ** The failure boundary ([ModelErrorBoundary]) *)

Module Boundary.

Definition Error := string.

(** The only call to [console.error] of the file:
    [console.error('Model load failed', error)]. *)
Inductive LogEntry := ModelLoadFailed (e : Error).

(** [this.state] together with [this.props.resetKey]. *)
Record State := mkState {
  error : option Error;
  resetKey : string
}.

(** What [render()] returns. *)
Inductive Rendered := Fallback | Children.

(** The two visible states of the machine. *)
Definition failed (st : State) : Prop := is_Some (error st).
Definition healthy (st : State) : Prop := error st = None.

(** The constructor: [this.state = { error: null }]. *)
Definition constructor (key : string) : State :=
  {| error := None; resetKey := key |}.

(** [static getDerivedStateFromError(error) { return { error } }] *)
Definition getDerivedStateFromError (e : Error) (st : State) : State :=
  {| error := Some e; resetKey := resetKey st |}.

(** [componentDidCatch(error)]: logs and nothing else. *)
Definition componentDidCatch (e : Error) : list LogEntry :=
  [ModelLoadFailed e].

(** [componentDidUpdate(prevProps)], run after the props of the state
    have been replaced: [st] already carries [this.props]. *)
Definition componentDidUpdate (prevKey : string) (st : State) : State :=
  if negb (String.eqb prevKey (resetKey st)) && bool_decide (is_Some (error st))
  then {| error := None; resetKey := resetKey st |}
  else st.

Definition render (st : State) : Rendered :=
  match error st with
  | Some _ => Fallback
  | None => Children
  end.

(** The resetKey that [ModelCanvas] passes:
    [`${modelUrl}-${textureUrl ?? 'none'}`]. *)
Definition canvasKey (modelUrl : string) (textureUrl : option string) : string :=
  modelUrl +:+ "-" +:+ nullish textureUrl "none".

(** What can happen to a mounted boundary: a descendant throws while it
    loads or renders, or the parent re-renders it with (possibly new)
    props. *)
Inductive Event :=
| ChildThrew (e : Error)
| Rerendered (modelUrl : string) (textureUrl : option string).

Definition step (st : State) (ev : Event) : State :=
  match ev with
  | ChildThrew e => getDerivedStateFromError e st
  | Rerendered m t =>
      componentDidUpdate (resetKey st)
        {| error := error st; resetKey := canvasKey m t |}
  end.

Definition logged (ev : Event) : list LogEntry :=
  match ev with
  | ChildThrew e => componentDidCatch e
  | Rerendered _ _ => []
  end.

End Boundary.

(** ** The texture and sticker load effects of [Model] *)

Module Loader.

(** The state one load effect owns.  Every run of the effect body that
    reaches [let cancelled = false] creates a fresh variable captured by
    the two loader callbacks and by the cleanup closure; the variables are
    kept in [requests], indexed by the order in which the loads were
    issued, next to the url that was requested. *)
Record Slot := mkSlot {
  value : option TextureId;          (* [texture] / [stickerTexture] *)
  dep : option string;               (* the dependency of the last run *)
  requests : list (string * bool);   (* url and [cancelled] of each load *)
  cleanup : option nat               (* the variable the cleanup closure sets *)
}.

Definition set_value (v : option TextureId) (s : Slot) : Slot :=
  {| value := v; dep := dep s; requests := requests s; cleanup := cleanup s |}.

(** [cancelled] as request [r]'s callbacks read it; a request that was
    never issued has no callbacks. *)
Definition cancelled (r : nat) (s : Slot) : option bool :=
  snd <$> requests s !! r.

(** [() => { cancelled = true }] *)
Definition runCleanup (s : Slot) : Slot :=
  match cleanup s with
  | Some r =>
      {| value := value s; dep := dep s;
         requests := alter (fun q => (fst q, true)) r (requests s);
         cleanup := None |}
  | None => s
  end.

(** The body of the effect.  [resetFirst] tells the texture effect, which
    calls [setTexture(null)] before it issues the load, from the sticker
    effect, which does not. *)
Definition effectBody (resetFirst : bool) (url : option string) (s : Slot) : Slot :=
  match url with
  | Some u =>
      if truthy_url url then
        {| value := if resetFirst then None else value s;
           dep := url;
           requests := requests s ++ [(u, false)];
           cleanup := Some (length (requests s)) |}
      else {| value := None; dep := url; requests := requests s; cleanup := None |}
  | None => {| value := None; dep := url; requests := requests s; cleanup := None |}
  end.

(** Mounting runs the body on a slot whose state is [useState(null)]. *)
Definition mount (resetFirst : bool) (url : option string) : Slot :=
  effectBody resetFirst url
    {| value := None; dep := None; requests := []; cleanup := None |}.

(** The success callback: [if (cancelled) return; ...; setTexture(loaded)]. *)
Definition onLoad (r : nat) (loaded : TextureId) (s : Slot) : Slot :=
  match cancelled r s with
  | Some false => set_value (Some loaded) s
  | _ => s
  end.

(** The error callback: [if (!cancelled) setTexture(null)]. *)
Definition onError (r : nat) (s : Slot) : Slot :=
  match cancelled r s with
  | Some false => set_value None s
  | _ => s
  end.

Inductive Event :=
| UrlProp (url : option string)      (* a render with this url prop *)
| Loaded (r : nat) (tex : TextureId) (* the loader resolves request [r] *)
| Failed (r : nat)                   (* the loader rejects request [r] *)
| Unmount.

(** React re-runs an effect when its dependency differs from the one of
    the previous run: first the previous cleanup, then the body. *)
Definition step (resetFirst : bool) (s : Slot) (ev : Event) : Slot :=
  match ev with
  | UrlProp url =>
      if decide (url = dep s) then s
      else effectBody resetFirst url (runCleanup s)
  | Loaded r tex => onLoad r tex s
  | Failed r => onError r s
  | Unmount => runCleanup s
  end.

Definition run (resetFirst : bool) (s : Slot) (evs : list Event) : Slot :=
  foldl (step resetFirst) s evs.

(** A completion of request [r] commits state when its callback gets past
    the [cancelled] check. *)
Definition commits (r : nat) (s : Slot) : Prop := cancelled r s = Some false.

(** The request issued last, if any. *)
Definition latest (s : Slot) : option nat :=
  match length (requests s) with
  | O => None
  | S n => Some n
  end.

End Loader.

(** ** The viewer: both load effects, the boundary and the console *)

Module Viewer.

Record State := mkState {
  textureSlot : Loader.Slot;
  stickerSlot : Loader.Slot;
  boundary : Boundary.State;
  console : list Boundary.LogEntry
}.

Inductive Event :=
| TextureEv (ev : Loader.Event)
| StickerEv (ev : Loader.Event)
| BoundaryEv (ev : Boundary.Event).

Definition step (v : State) (ev : Event) : State :=
  match ev with
  | TextureEv e =>
      {| textureSlot := Loader.step true (textureSlot v) e;
         stickerSlot := stickerSlot v;
         boundary := boundary v;
         console := console v |}
  | StickerEv e =>
      {| textureSlot := textureSlot v;
         stickerSlot := Loader.step false (stickerSlot v) e;
         boundary := boundary v;
         console := console v |}
  | BoundaryEv e =>
      {| textureSlot := textureSlot v;
         stickerSlot := stickerSlot v;
         boundary := Boundary.step (boundary v) e;
         console := console v ++ Boundary.logged e |}
  end.

Definition mount (modelUrl : string) (textureUrl stickerUrl : option string) : State :=
  {| textureSlot := Loader.mount true textureUrl;
     stickerSlot := Loader.mount false stickerUrl;
     boundary := Boundary.constructor (Boundary.canvasKey modelUrl textureUrl);
     console := [] |}.

(** The override texture and the sticker texture the render uses. *)
Definition texture (v : State) : option TextureId := Loader.value (textureSlot v).
Definition stickerTexture (v : State) : option TextureId := Loader.value (stickerSlot v).

End Viewer.

(** ** Numbers and vectors *)

(** [x < y] on JavaScript numbers, as a test. *)
Definition Qltb (x y : Q) : bool := negb (Qle_bool y x).

(** The double [Math.PI], which is the rational 884279719003555 / 2^48. *)
Definition Math_PI : Q := 884279719003555 # 281474976710656.

Record Vector3 := vec3 { vx : Q; vy : Q; vz : Q }.

Module Vec.
Definition zero : Vector3 := vec3 0 0 0.
Definition add (a b : Vector3) : Vector3 :=
  vec3 (vx a + vx b) (vy a + vy b) (vz a + vz b).
Definition sub (a b : Vector3) : Vector3 :=
  vec3 (vx a - vx b) (vy a - vy b) (vz a - vz b).
Definition multiply (a b : Vector3) : Vector3 :=
  vec3 (vx a * vx b) (vy a * vy b) (vz a * vz b).
Definition multiplyScalar (a : Vector3) (s : Q) : Vector3 :=
  vec3 (vx a * s) (vy a * s) (vz a * s).
Definition setScalar (s : Q) : Vector3 := vec3 s s s.
Definition min (a b : Vector3) : Vector3 :=
  vec3 (Qmin (vx a) (vx b)) (Qmin (vy a) (vy b)) (Qmin (vz a) (vz b)).
Definition max (a b : Vector3) : Vector3 :=
  vec3 (Qmax (vx a) (vx b)) (Qmax (vy a) (vy b)) (Qmax (vz a) (vz b)).
(** Componentwise equality of values. *)
Definition eqv (a b : Vector3) : Prop :=
  vx a == vx b /\ vy a == vy b /\ vz a == vz b.
End Vec.

(** ** Materials, meshes and the scene graph *)

(** [shader.uniforms] as far as the hook fills it. *)
Record BlendUniforms := mkUniforms {
  uPrevMap : TextureId;
  uNextMap : TextureId;
  uNoiseMap : TextureId;
  uMix : Q
}.

(** The closure assigned to [onBeforeCompile]: the variables it captured. *)
Record Hook := mkHook {
  hook_material : MaterialId;
  hook_fallbackTexture : TextureId;
  hook_noiseTexture : TextureId
}.

(** A [MeshStandardMaterial] with the [userData] entries the code uses.
    [hookInstalls] is a ghost counter of the assignments to
    [onBeforeCompile]. *)
Record Material := mkMaterial {
  map : option TextureId;
  metalness : option Q;
  roughness : option Q;
  needsUpdate : bool;
  onBeforeCompile : option Hook;
  hookInstalls : nat;
  patched : bool;                          (* [userData.__patched] *)
  blendUniforms : option BlendUniforms;    (* [userData.blendUniforms] *)
  originalMap : option TextureId;          (* [userData.originalMap] *)
  currentMap : option TextureId;           (* [userData.currentMap] *)
  transitionProgress : option Q            (* [userData.transitionProgress] *)
}.

(** A material as the glTF loader creates it. *)
Definition freshMaterial (m : option TextureId) : Material :=
  {| map := m; metalness := Some 0%Q; roughness := Some 1%Q; needsUpdate := false;
     onBeforeCompile := None; hookInstalls := 0; patched := false;
     blendUniforms := None; originalMap := None; currentMap := None;
     transitionProgress := None |}.

(** [mesh.material] is one material or an array of them. *)
Inductive MeshMaterial :=
| Single (m : MaterialId)
| Multi (ms : list MaterialId).

(** An object of the scene graph.  A mesh carries the corners of its
    geometry's bounding box, expressed in the frame of the [<group>] that
    holds the scene (after the transforms of the nodes below the group and
    the group's rotation, which the effects never change). *)
Inductive Object3D :=
| Obj (children : list Object3D)
| Mesh (id : MeshId) (material : MeshMaterial) (corners : list Vector3)
       (children : list Object3D).

(** [Object3D.traverse]: the object itself, then every child in order. *)
Fixpoint traverse (o : Object3D) : list Object3D :=
  match o with
  | Obj cs => o :: flat_map traverse cs
  | Mesh _ _ _ cs => o :: flat_map traverse cs
  end.

(** [Array.isArray(mesh.material) ? mesh.material : [mesh.material]] *)
Definition materialArray (mm : MeshMaterial) : list MaterialId :=
  match mm with
  | Single m => [m]
  | Multi ms => ms
  end.

(** The meshes of a scene in traversal order, and their materials. *)
Definition meshOf (o : Object3D) : option MeshId :=
  match o with
  | Obj _ => None
  | Mesh id _ _ _ => Some id
  end.

Definition materialsOf (o : Object3D) : list MaterialId :=
  match o with
  | Obj _ => []
  | Mesh _ mm _ _ => materialArray mm
  end.

Definition cornersOf (o : Object3D) : list Vector3 :=
  match o with
  | Obj _ => []
  | Mesh _ _ cs _ => cs
  end.

Definition sceneMeshes (scene : Object3D) : list MeshId :=
  omap meshOf (traverse scene).

Definition sceneMaterials (scene : Object3D) : list MaterialId :=
  flat_map materialsOf (traverse scene).

Definition sceneCorners (scene : Object3D) : list Vector3 :=
  flat_map cornersOf (traverse scene).

(** The [<group>] that [groupRef] points to. *)
Record Group := mkGroup {
  position : Vector3;
  rotation : Vector3;
  scale : Vector3
}.

Definition freshGroup : Group :=
  {| position := Vec.zero; rotation := Vec.zero; scale := Vec.setScalar 1 |}.

(** ** The [Model] component: refs, heap and effects *)

Module Model.

(** The material objects (they belong to the loaded glTF documents) and
    the refs of one mounted [Model]. *)
Record State := mkState {
  heap : gmap MaterialId Material;
  originalMaps : gmap MaterialId (option TextureId);   (* the [WeakMap] *)
  materialsRef : list MaterialId;
  stickerTargetRef : option MeshId;
  groupRef : option Group
}.

(** A [Model] that has just mounted over the given material objects. *)
Definition mounted (h : gmap MaterialId Material) : State :=
  {| heap := h; originalMaps := ∅; materialsRef := []; stickerTargetRef := None;
     groupRef := Some freshGroup |}.

Definition set_heap (h : gmap MaterialId Material) (st : State) : State :=
  {| heap := h; originalMaps := originalMaps st; materialsRef := materialsRef st;
     stickerTargetRef := stickerTargetRef st; groupRef := groupRef st |}.

Definition set_groupRef (g : option Group) (st : State) : State :=
  {| heap := heap st; originalMaps := originalMaps st; materialsRef := materialsRef st;
     stickerTargetRef := stickerTargetRef st; groupRef := g |}.

Definition set_stickerTargetRef (t : option MeshId) (st : State) : State :=
  {| heap := heap st; originalMaps := originalMaps st; materialsRef := materialsRef st;
     stickerTargetRef := t; groupRef := groupRef st |}.

Section Patch.
(** The two textures made once per component by [useMemo]. *)
Variables fallbackTexture noiseTexture : TextureId.

(** [if (!standardMaterial.userData.__patched) { ... }] *)
Definition installHook (m : MaterialId) (mat : Material) : Material :=
  if patched mat then mat
  else
    {| map := map mat; metalness := metalness mat; roughness := roughness mat;
       needsUpdate := true;
       onBeforeCompile := Some (mkHook m fallbackTexture noiseTexture);
       hookInstalls := S (hookInstalls mat);
       patched := true;
       blendUniforms := blendUniforms mat; originalMap := originalMap mat;
       currentMap := currentMap mat; transitionProgress := transitionProgress mat |}.

(** The defaults for [metalness] and [roughness] and the
    [userData.originalMap] record. *)
Definition fillDefaults (mat : Material) : Material :=
  {| map := map mat;
     metalness := match metalness mat with None => Some 0.2%Q | v => v end;
     roughness := match roughness mat with None => Some 0.6%Q | v => v end;
     needsUpdate := needsUpdate mat;
     onBeforeCompile := onBeforeCompile mat;
     hookInstalls := hookInstalls mat;
     patched := patched mat;
     blendUniforms := blendUniforms mat;
     originalMap := match originalMap mat with None => map mat | v => v end;
     currentMap := currentMap mat; transitionProgress := transitionProgress mat |}.

(** The callback of [materials.forEach] in the patch effect.  A material
    id without an object in the heap is not a material of any scene. *)
Definition patchMaterial (st : State) (m : MaterialId) : State :=
  match heap st !! m with
  | None => st
  | Some mat =>
      {| heap := <[m := fillDefaults (installHook m mat)]> (heap st);
         originalMaps :=
           (if decide (is_Some (originalMaps st !! m)) then originalMaps st
            else <[m := map mat]> (originalMaps st));
         materialsRef :=
           (if decide (m ∈ materialsRef st) then materialsRef st
            else materialsRef st ++ [m]);
         stickerTargetRef := stickerTargetRef st;
         groupRef := groupRef st |}
  end.

(** The callback of [scene.traverse] (the shadow flags of the mesh are
    not tracked). *)
Definition visit (st : State) (o : Object3D) : State :=
  match o with
  | Obj _ => st
  | Mesh id mm _ _ =>
      foldl patchMaterial
        (set_stickerTargetRef
           (match stickerTargetRef st with
            | None => Some id
            | Some t => Some t
            end) st)
        (materialArray mm)
  end.

(** The material patch effect. *)
Definition patchEffect (scene : Object3D) (st : State) : State :=
  foldl visit st (traverse scene).

(** The hook body, as the renderer runs it when it compiles the
    material's program: it fills [shader.uniforms] and keeps them in
    [userData.blendUniforms]. *)
Definition runHook (h : gmap MaterialId Material) (k : Hook) : gmap MaterialId Material :=
  match h !! hook_material k with
  | None => h
  | Some mat =>
      let m0 := nullish (map mat) (hook_fallbackTexture k) in
      <[hook_material k :=
          {| map := map mat; metalness := metalness mat; roughness := roughness mat;
             needsUpdate := needsUpdate mat;
             onBeforeCompile := onBeforeCompile mat;
             hookInstalls := hookInstalls mat; patched := patched mat;
             blendUniforms := Some (mkUniforms m0 m0 (hook_noiseTexture k) 1);
             originalMap := originalMap mat; currentMap := currentMap mat;
             transitionProgress := transitionProgress mat |}]> h
  end.

(** The renderer compiles material [m]. *)
Definition compile (m : MaterialId) (st : State) : State :=
  match heap st !! m with
  | Some mat =>
      match onBeforeCompile mat with
      | Some k => set_heap (runHook (heap st) k) st
      | None => st
      end
  | None => st
  end.

(** The callback of [materialsRef.current.forEach] in the
    texture-change effect. *)
Definition retarget (texture : option TextureId)
    (om : gmap MaterialId (option TextureId)) (m : MaterialId) (mat : Material) : Material :=
  let originalMap' := nullish (om !! m ≫= id) fallbackTexture in
  let currentApplied := nullish (currentMap mat) originalMap' in
  let nextMap := nullish texture originalMap' in
  {| map := map mat; metalness := metalness mat; roughness := roughness mat;
     needsUpdate := needsUpdate mat;
     onBeforeCompile := onBeforeCompile mat;
     hookInstalls := hookInstalls mat; patched := patched mat;
     blendUniforms :=
       match blendUniforms mat with
       | Some u => Some (mkUniforms currentApplied nextMap (uNoiseMap u) 0)
       | None => None
       end;
     originalMap := originalMap mat;
     currentMap := Some nextMap;
     transitionProgress := Some 0%Q |}.

(** The texture-change effect. *)
Definition textureEffect (texture : option TextureId) (st : State) : State :=
  set_heap
    (foldl (fun h m => alter (retarget texture (originalMaps st) m) m h)
           (heap st) (materialsRef st))
    st.
End Patch.

(** The callback of [materialsRef.current.forEach] in [useFrame]. *)
Definition advance (delta : Q) (mat : Material) : Material :=
  match blendUniforms mat with
  | None => mat
  | Some u =>
      let progress := nullish (transitionProgress mat) 1%Q in
      if Qltb progress 1 then
        let next := Qmin 1 (progress + delta / 0.8) in
        {| map := map mat; metalness := metalness mat; roughness := roughness mat;
           needsUpdate := needsUpdate mat;
           onBeforeCompile := onBeforeCompile mat;
           hookInstalls := hookInstalls mat; patched := patched mat;
           blendUniforms :=
             Some (mkUniforms (uPrevMap u) (uNextMap u) (uNoiseMap u) next);
           originalMap := originalMap mat; currentMap := currentMap mat;
           transitionProgress := Some next |}
      else mat
  end.

(** [groupRef.current.rotation.y += delta * 0.15] *)
Definition spin (delta : Q) (g : Group) : Group :=
  {| position := position g;
     rotation := vec3 (vx (rotation g)) (vy (rotation g) + delta * 0.15) (vz (rotation g));
     scale := scale g |}.

(** The [useFrame] callback. *)
Definition useFrame (delta : Q) (st : State) : State :=
  {| heap := foldl (fun h m => alter (advance delta) m h) (heap st) (materialsRef st);
     originalMaps := originalMaps st;
     materialsRef := materialsRef st;
     stickerTargetRef := stickerTargetRef st;
     groupRef := spin delta <$> groupRef st |}.

(** Frames rendered one after the other with the given elapsed times. *)
Definition frames (deltas : list Q) (st : State) : State :=
  foldl (fun s d => useFrame d s) st deltas.

End Model.

(** ** Bounding boxes (three.js [Box3]) *)

Module Box3.

(** A box is empty ([makeEmpty]) or has a lower and an upper corner. *)
Definition t := option (Vector3 * Vector3).

Definition makeEmpty : t := None.

Definition expandByPoint (b : t) (p : Vector3) : t :=
  match b with
  | None => Some (p, p)
  | Some (lo, hi) => Some (Vec.min lo p, Vec.max hi p)
  end.

(** A point of the group's frame in world space, for a group whose parent
    is the untransformed scene: scaled, then translated. *)
Definition toWorld (g : Group) (p : Vector3) : Vector3 :=
  Vec.add (Vec.multiply p (scale g)) (position g).

Definition setFromPoints (pts : list Vector3) : t :=
  foldl expandByPoint makeEmpty pts.

(** [new Box3().setFromObject(group)]: the world-space box of every
    mesh below the group. *)
Definition setFromObject (g : Group) (scene : Object3D) : t :=
  setFromPoints (toWorld g <$> sceneCorners scene).

(** [getSize] and [getCenter] answer the zero vector on an empty box. *)
Definition getSize (b : t) : Vector3 :=
  match b with
  | None => Vec.zero
  | Some (lo, hi) => Vec.sub hi lo
  end.

Definition getCenter (b : t) : Vector3 :=
  match b with
  | None => Vec.zero
  | Some (lo, hi) => Vec.multiplyScalar (Vec.add lo hi) 0.5
  end.

(** [Math.max(size.x, size.y, size.z)] *)
Definition maxAxis (b : t) : Q :=
  let size := getSize b in Qmax (Qmax (vx size) (vy size)) (vz size).

End Box3.

Module AutoFrame.

(** The body of the auto-frame effect on the group [groupRef.current]. *)
Definition normalize (scene : Object3D) (g : Group) : Group :=
  let box := Box3.setFromObject g scene in
  let maxAxis := Box3.maxAxis box in
  let scale' := if Qltb 0 maxAxis then (2.4 / maxAxis)%Q else 1%Q in
  let g1 := {| position := position g; rotation := rotation g;
               scale := Vec.setScalar scale' |} in
  let box' := Box3.setFromObject g1 scene in
  let center := Box3.getCenter box' in
  {| position := Vec.sub (position g1) center; rotation := rotation g1;
     scale := scale g1 |}.

(** The effect: [if (!groupRef.current) return; ...]. *)
Definition autoFrame (scene : Object3D) (st : Model.State) : Model.State :=
  match Model.groupRef st with
  | None => st
  | Some g => Model.set_groupRef (Some (normalize scene g)) st
  end.

(** The box the renderer would measure after the effect. *)
Definition framedBox (scene : Object3D) (st : Model.State) : Box3.t :=
  match Model.groupRef (autoFrame scene st) with
  | None => Box3.makeEmpty
  | Some g => Box3.setFromObject g scene
  end.

End AutoFrame.

(** ** The decal that [Model] renders *)

Module Decal.

(** The [stickerTransform] prop: rotation in degrees. *)
Record StickerTransform := mkTransform {
  st_position : Vector3;
  st_rotation : Vector3;
  st_scale : Q
}.

(** The props of the rendered [<Decal>]. *)
Record Props := mkProps {
  mesh : MeshId;
  d_position : Vector3;
  d_rotation : Vector3;
  d_scale : Q;
  d_map : TextureId
}.

(** [(deg * Math.PI) / 180] *)
Definition toRadians (deg : Q) : Q := (deg * Math_PI / 180)%Q.

(** The conditional of the JSX: a decal, or [null]. *)
Definition render (stickerTexture : option TextureId)
    (stickerTransform : option StickerTransform) (st : Model.State) : option Props :=
  match stickerTexture, stickerTransform, Model.stickerTargetRef st with
  | Some tex, Some tr, Some target =>
      Some {| mesh := target;
              d_position := st_position tr;
              d_rotation := vec3 (toRadians (vx (st_rotation tr)))
                                 (toRadians (vy (st_rotation tr)))
                                 (toRadians (vz (st_rotation tr)));
              d_scale := st_scale tr;
              d_map := tex |}
  | _, _, _ => None
  end.

End Decal.

(** ** The fragment stage installed by the hook *)

Module Shader.

Record vec4 := mkVec4 { r : Q; g : Q; b : Q; a : Q }.

Definition eqv (c d : vec4) : Prop :=
  r c == r d /\ g c == g d /\ b c == b d /\ a c == a d.

Definition clamp (x lo hi : Q) : Q := Qmin (Qmax x lo) hi.

(** GLSL [smoothstep]: Hermite interpolation of the clamped ratio. *)
Definition smoothstep (edge0 edge1 x : Q) : Q :=
  let t := clamp ((x - edge0) / (edge1 - edge0)) 0 1 in
  (t * t * (3 - 2 * t))%Q.

(** GLSL [mix] on a scalar and on a [vec4]. *)
Definition mix1 (x y t : Q) : Q := (x * (1 - t) + y * t)%Q.
Definition mix (c d : vec4) (t : Q) : vec4 :=
  mkVec4 (mix1 (r c) (r d) t) (mix1 (g c) (g d) t)
         (mix1 (b c) (b d) t) (mix1 (a c) (a d) t).

Definition mul (c d : vec4) : vec4 :=
  mkVec4 (r c * r d) (g c * g d) (b c * b d) (a c * a d).

Section Fragment.
(** [texture2D] on the three samplers. *)
Variables uPrevMap uNextMap uNoiseMap : Q * Q -> vec4.

(** The blend value the block computes from [uMix] and the noise. *)
Definition blendOf (uMix noise : Q) : Q :=
  let mixProgress := clamp uMix 0 1 in
  let noiseEdge := smoothstep (mixProgress - 0.2) (mixProgress + 0.2) noise in
  Qmax noiseEdge mixProgress.

(** The coordinate at which the noise map is read:
    [vMapUv * 8.0 + vec2(uMix * 2.0)]. *)
Definition noiseUv (uMix : Q) (vMapUv : Q * Q) : Q * Q :=
  ((fst vMapUv * 8 + uMix * 2)%Q, (snd vMapUv * 8 + uMix * 2)%Q).

(** The text that replaces [#include <map_fragment>]; the block is
    compiled only when the material has a map ([USE_MAP]). *)
Definition map_fragment (USE_MAP : bool) (uMix : Q) (vMapUv : Q * Q)
    (diffuseColor : vec4) : vec4 :=
  if USE_MAP then
    let texPrev := uPrevMap vMapUv in
    let texNext := uNextMap vMapUv in
    let noise := r (uNoiseMap (noiseUv uMix vMapUv)) in
    let blend := blendOf uMix noise in
    let texelColor := mix texPrev texNext blend in
    mul diffuseColor texelColor
  else diffuseColor.

End Fragment.

End Shader.

(** ** What happens to a mounted [Model] *)

Module Session.

(** The effects and callbacks of [Model], one event each: the patch
    effect (its dependencies are the scene and the texture), the
    texture-change effect, the renderer compiling a material, a rendered
    frame, and the auto-frame effect. *)
Inductive Event :=
| Patch (scene : Object3D)
| TextureChanged (texture : option TextureId)
| Compiled (m : MaterialId)
| Frame (delta : Q)
| AutoFramed (scene : Object3D).

Section Run.
Variables fallbackTexture noiseTexture : TextureId.

Definition step (st : Model.State) (ev : Event) : Model.State :=
  match ev with
  | Patch scene => Model.patchEffect fallbackTexture noiseTexture scene st
  | TextureChanged texture => Model.textureEffect fallbackTexture texture st
  | Compiled m => Model.compile m st
  | Frame delta => Model.useFrame delta st
  | AutoFramed scene => AutoFrame.autoFrame scene st
  end.

Definition run (st : Model.State) (evs : list Event) : Model.State :=
  foldl step st evs.
End Run.

End Session.

(** ** The application shell ([App]) *)

Module App.

(** [ModelOption] and [TextureOption] are the same shape.  [isLocal] is
    optional in the source and only ever tested for truthiness: an absent
    flag is [false]. *)
Record AssetOption := mkOption {
  id : string;
  name : string;
  url : string;
  isLocal : bool
}.

Definition defaultModels : list AssetOption :=
  [ mkOption "astronaut" "Astronaut (sample)"
      "https://modelviewer.dev/shared-assets/models/Astronaut.glb" false;
    mkOption "helmet" "Damaged Helmet (sample)"
      "https://raw.githubusercontent.com/KhronosGroup/glTF-Sample-Models/master/2.0/DamagedHelmet/glTF-Binary/DamagedHelmet.glb" false;
    mkOption "duck" "Duck (Khronos sample)"
      "https://raw.githubusercontent.com/KhronosGroup/glTF-Sample-Models/master/2.0/Duck/glTF-Binary/Duck.glb" false ].

Definition defaultTextures : list AssetOption :=
  [ mkOption "uv-grid" "UV Grid"
      "https://threejs.org/examples/textures/uv_grid_opengl.jpg" false;
    mkOption "metal" "Brushed Metal"
      "https://raw.githubusercontent.com/mrdoob/three.js/dev/examples/textures/metal/Metal_Plate_037_basecolor.jpg" false;
    mkOption "fabric" "Blue Fabric"
      "https://raw.githubusercontent.com/mrdoob/three.js/dev/examples/textures/fabric/fabric_04_basecolor.jpg" false ].

(** [defaultModels[0]?.id ?? ''] *)
Definition initialModelId : string :=
  nullish (id <$> head defaultModels) "".

Definition defaultStickerTransform : Decal.StickerTransform :=
  Decal.mkTransform (vec3 0 0.25 0) (vec3 0 0 0) 0.5.

(** A [File]: only its name is read. *)
Record File := mkFile { file_name : string }.

(** The state of [App]: its seven [useState] cells, its three refs, and
    the object urls the browser has been asked to revoke, in call order. *)
Record State := mkState {
  models : list AssetOption;
  textures : list AssetOption;
  selectedModelId : string;
  selectedTextureId : option string;
  stickerUrl : option string;
  stickerTransform : Decal.StickerTransform;
  modelObjectUrls : list string;
  textureObjectUrls : list string;
  stickerObjectUrls : list string;
  revoked : list string
}.

Definition init : State :=
  {| models := defaultModels; textures := defaultTextures;
     selectedModelId := initialModelId; selectedTextureId := None;
     stickerUrl := None; stickerTransform := defaultStickerTransform;
     modelObjectUrls := []; textureObjectUrls := []; stickerObjectUrls := [];
     revoked := [] |}.

(** [options.find((o) => o.id === wanted)] *)
Definition findById (wanted : string) (options : list AssetOption) : option AssetOption :=
  List.find (fun o => String.eqb (id o) wanted) options.

(** [`${file.name}-${Date.now()}`]; the clock answers a non-negative
    integer, printed in decimal. *)
Definition uploadId (file : File) (now : N) : string :=
  file_name file +:+ "-" +:+ pretty now.

Definition uploadedOption (file : File) (objectUrl : string) (now : N) : AssetOption :=
  {| id := uploadId file now; name := file_name file; url := objectUrl; isLocal := true |}.

(** The upload handlers.  [objectUrl] is what [URL.createObjectURL] answers
    inside [buildObjectUrl], which pushes it on the handler's bucket, and
    [now] is what [Date.now()] answers. *)
Definition handleModelUpload (file : File) (objectUrl : string) (now : N)
    (st : State) : State :=
  let newModel := uploadedOption file objectUrl now in
  {| models := models st ++ [newModel]; textures := textures st;
     selectedModelId := id newModel; selectedTextureId := selectedTextureId st;
     stickerUrl := stickerUrl st; stickerTransform := stickerTransform st;
     modelObjectUrls := modelObjectUrls st ++ [objectUrl];
     textureObjectUrls := textureObjectUrls st;
     stickerObjectUrls := stickerObjectUrls st; revoked := revoked st |}.

Definition handleTextureUpload (file : File) (objectUrl : string) (now : N)
    (st : State) : State :=
  let newTexture := uploadedOption file objectUrl now in
  {| models := models st; textures := textures st ++ [newTexture];
     selectedModelId := selectedModelId st; selectedTextureId := Some (id newTexture);
     stickerUrl := stickerUrl st; stickerTransform := stickerTransform st;
     modelObjectUrls := modelObjectUrls st;
     textureObjectUrls := textureObjectUrls st ++ [objectUrl];
     stickerObjectUrls := stickerObjectUrls st; revoked := revoked st |}.

Definition handleStickerUpload (objectUrl : string) (st : State) : State :=
  {| models := models st; textures := textures st;
     selectedModelId := selectedModelId st; selectedTextureId := selectedTextureId st;
     stickerUrl := Some objectUrl; stickerTransform := stickerTransform st;
     modelObjectUrls := modelObjectUrls st;
     textureObjectUrls := textureObjectUrls st;
     stickerObjectUrls := stickerObjectUrls st ++ [objectUrl]; revoked := revoked st |}.

(** [FileInput]'s [handleChange]: [onSelect] runs only when the input
    holds a file. *)
Definition handleChange (onSelect : File -> State -> State) (file : option File)
    (st : State) : State :=
  match file with
  | Some f => onSelect f st
  | None => st
  end.

Definition set_selectedModelId (v : string) (st : State) : State :=
  {| models := models st; textures := textures st;
     selectedModelId := v; selectedTextureId := selectedTextureId st;
     stickerUrl := stickerUrl st; stickerTransform := stickerTransform st;
     modelObjectUrls := modelObjectUrls st;
     textureObjectUrls := textureObjectUrls st;
     stickerObjectUrls := stickerObjectUrls st; revoked := revoked st |}.

Definition set_selectedTextureId (v : option string) (st : State) : State :=
  {| models := models st; textures := textures st;
     selectedModelId := selectedModelId st; selectedTextureId := v;
     stickerUrl := stickerUrl st; stickerTransform := stickerTransform st;
     modelObjectUrls := modelObjectUrls st;
     textureObjectUrls := textureObjectUrls st;
     stickerObjectUrls := stickerObjectUrls st; revoked := revoked st |}.

Definition set_stickerUrl (v : option string) (st : State) : State :=
  {| models := models st; textures := textures st;
     selectedModelId := selectedModelId st; selectedTextureId := selectedTextureId st;
     stickerUrl := v; stickerTransform := stickerTransform st;
     modelObjectUrls := modelObjectUrls st;
     textureObjectUrls := textureObjectUrls st;
     stickerObjectUrls := stickerObjectUrls st; revoked := revoked st |}.

Definition set_stickerTransform (v : Decal.StickerTransform) (st : State) : State :=
  {| models := models st; textures := textures st;
     selectedModelId := selectedModelId st; selectedTextureId := selectedTextureId st;
     stickerUrl := stickerUrl st; stickerTransform := v;
     modelObjectUrls := modelObjectUrls st;
     textureObjectUrls := textureObjectUrls st;
     stickerObjectUrls := stickerObjectUrls st; revoked := revoked st |}.

(** [event.target.value || null] of the texture select. *)
Definition textureValue (value : string) : option string :=
  if String.eqb value "" then None else Some value.

Inductive Axis := AxisX | AxisY | AxisZ.

(** The tuples the slider handlers build: one component replaced. *)
Definition withComponent (a : Axis) (v : Q) (t : Vector3) : Vector3 :=
  match a with
  | AxisX => vec3 v (vy t) (vz t)
  | AxisY => vec3 (vx t) v (vz t)
  | AxisZ => vec3 (vx t) (vy t) v
  end.

Definition withPosition (a : Axis) (v : Q) (t : Decal.StickerTransform) :=
  Decal.mkTransform (withComponent a v (Decal.st_position t))
    (Decal.st_rotation t) (Decal.st_scale t).

Definition withRotation (a : Axis) (v : Q) (t : Decal.StickerTransform) :=
  Decal.mkTransform (Decal.st_position t)
    (withComponent a v (Decal.st_rotation t)) (Decal.st_scale t).

Definition withScale (v : Q) (t : Decal.StickerTransform) :=
  Decal.mkTransform (Decal.st_position t) (Decal.st_rotation t) v.

(** The cleanup of the first effect: every url of the three buckets is
    revoked, models first, then textures, then stickers. *)
Definition teardown (st : State) : State :=
  {| models := models st; textures := textures st;
     selectedModelId := selectedModelId st; selectedTextureId := selectedTextureId st;
     stickerUrl := stickerUrl st; stickerTransform := stickerTransform st;
     modelObjectUrls := modelObjectUrls st;
     textureObjectUrls := textureObjectUrls st;
     stickerObjectUrls := stickerObjectUrls st;
     revoked := revoked st ++ modelObjectUrls st ++ textureObjectUrls st
                ++ stickerObjectUrls st |}.

(** The second effect: a selected id that names no model falls back to
    the first model. *)
Definition selectionEffect (st : State) : State :=
  match findById (selectedModelId st) (models st), head (models st) with
  | None, Some first => set_selectedModelId (id first) st
  | _, _ => st
  end.

(** [models.find(...) ?? models[0]] and [textures.find(...) ?? null]. *)
Definition selectedModel (st : State) : option AssetOption :=
  match findById (selectedModelId st) (models st) with
  | Some m => Some m
  | None => head (models st)
  end.

Definition selectedTexture (st : State) : option AssetOption :=
  match selectedTextureId st with
  | Some wanted => findById wanted (textures st)
  | None => None
  end.

(** The props handed to [ModelCanvas]; without a selected model the
    viewer shows the "Add a model" notice instead. *)
Record CanvasProps := mkCanvasProps {
  modelUrl : string;
  textureUrl : option string;
  canvasStickerUrl : option string;
  canvasStickerTransform : Decal.StickerTransform
}.

Definition canvasProps (st : State) : option CanvasProps :=
  match selectedModel st with
  | Some m =>
      Some {| modelUrl := url m;
              textureUrl := url <$> selectedTexture st;
              canvasStickerUrl := stickerUrl st;
              canvasStickerTransform := stickerTransform st |}
  | None => None
  end.

(** What the user and the browser can do to a mounted [App]. *)
Inductive Event :=
| ModelFile (file : option File) (objectUrl : string) (now : N)
| TextureFile (file : option File) (objectUrl : string) (now : N)
| StickerFile (file : option File) (objectUrl : string)
| ModelSelect (value : string)
| TextureSelect (value : string)
| PositionSlider (a : Axis) (v : Q)
| RotationSlider (a : Axis) (v : Q)
| ScaleSlider (v : Q)
| ResetTransform
| ClearSticker
| Teardown.

Definition handle (st : State) (ev : Event) : State :=
  match ev with
  | ModelFile file objectUrl now =>
      handleChange (fun f => handleModelUpload f objectUrl now) file st
  | TextureFile file objectUrl now =>
      handleChange (fun f => handleTextureUpload f objectUrl now) file st
  | StickerFile file objectUrl =>
      handleChange (fun _ => handleStickerUpload objectUrl) file st
  | ModelSelect value => set_selectedModelId value st
  | TextureSelect value => set_selectedTextureId (textureValue value) st
  | PositionSlider a v => set_stickerTransform (withPosition a v (stickerTransform st)) st
  | RotationSlider a v => set_stickerTransform (withRotation a v (stickerTransform st)) st
  | ScaleSlider v => set_stickerTransform (withScale v (stickerTransform st)) st
  | ResetTransform => set_stickerTransform defaultStickerTransform st
  | ClearSticker => set_stickerUrl None st
  | Teardown => teardown st
  end.

(** A handler, then the effects of the render it causes. *)
Definition step (st : State) (ev : Event) : State :=
  selectionEffect (handle st ev).

Definition run (st : State) (evs : list Event) : State :=
  foldl step st evs.

(** The object urls a run of events makes the browser create. *)
Definition created (ev : Event) : list string :=
  match ev with
  | ModelFile (Some _) u _ => [u]
  | TextureFile (Some _) u _ => [u]
  | StickerFile (Some _) u => [u]
  | _ => []
  end.

Definition isTeardown (ev : Event) : bool :=
  match ev with
  | Teardown => true
  | _ => false
  end.

End App.

(** ** The noise texture of [Model] *)

Module Noise.

(** A number stored into a [Uint8Array]: truncated toward zero, modulo 256. *)
Definition toUint8 (q : Q) : Z := (Z.quot (Qnum q) (Zpos (Qden q)) mod 256)%Z.

(** One round of the loop: [random i] is what the call of [Math.random]
    in round [i] answers.  A typed array ignores a write past its end, as
    the list update does. *)
Definition writeTexel (random : nat -> Q) (data : list Z) (i : nat) : list Z :=
  let v := toUint8 (random i * 255) in
  <[i * 4 + 3 := 255%Z]>
    (<[i * 4 + 2 := v]> (<[i * 4 + 1 := v]> (<[i * 4 + 0 := v]> data))).

(** [new Uint8Array(size * size * 4)] filled by the loop. *)
Definition noiseData (size : nat) (random : nat -> Q) : list Z :=
  foldl (writeTexel random) (replicate (size * size * 4) 0%Z) (seq 0 (size * size)).

(** The texture of the source has [size = 128]. *)
Definition size : nat := 128.

End Noise.

(** ** Invariants used below *)

(** What one pass of the patch callback makes of a material object. *)
Definition patchOnce (fallbackTexture noiseTexture : TextureId)
    (m : MaterialId) (mat : Material) : Material :=
  Model.fillDefaults (Model.installHook fallbackTexture noiseTexture m mat).

(** The ids of the heap's materials that carry the patched marker. *)
Definition markedMaterials (h : gmap MaterialId Material) : gset MaterialId :=
  dom (filter (fun kv => patched kv.2 = true) h).

(** A material the patch callback has nothing left to do for. *)
Definition settled (fallbackTexture noiseTexture : TextureId)
    (st : Model.State) (k : MaterialId) : Prop :=
  forall mat, Model.heap st !! k = Some mat ->
    patchOnce fallbackTexture noiseTexture k mat = mat /\
    k ∈ Model.materialsRef st /\ is_Some (Model.originalMaps st !! k).

(** The decal target after a traversal that met the meshes [ms]. *)
Definition firstTarget (current : option MeshId) (ms : list MeshId) : option MeshId :=
  match current with
  | Some t => Some t
  | None => head ms
  end.

(** The sum of the elapsed times of a run of frames. *)
Definition totalTime (deltas : list Q) : Q := foldr Qplus 0%Q deltas.





(** At most the request issued last is still live, and then it is the one
    the cleanup closure will cancel, issued for the current url. *)
Definition slot_inv (s : Loader.Slot) : Prop :=
  forall r, Loader.cancelled r s = Some false ->
    Loader.cleanup s = Some r /\ S r = length (Loader.requests s) /\
    exists u, Loader.requests s !! r = Some (u, false) /\ Loader.dep s = Some u.

(** The object urls [App] keeps in its three buckets. *)
Definition tracked (st : App.State) : list string :=
  App.modelObjectUrls st ++ App.textureObjectUrls st ++ App.stickerObjectUrls st.

(** Every object url [App] still uses is in the bucket of its kind. *)
Definition urls_tracked (st : App.State) : Prop :=
  (forall o, o ∈ App.models st -> App.isLocal o = true ->
     App.url o ∈ App.modelObjectUrls st)
  /\ (forall o, o ∈ App.textures st -> App.isLocal o = true ->
     App.url o ∈ App.textureObjectUrls st)
  /\ (forall u, App.stickerUrl st = Some u -> u ∈ App.stickerObjectUrls st).

(** A completion event of a request other than [r]. *)
Definition staleFor (r : nat) (ev : Loader.Event) : Prop :=
  match ev with
  | Loader.Loaded q _ => q <> r
  | Loader.Failed q => q <> r
  | _ => False
  end.

(** An event that leaves the url prop alone: a completion or the unmount. *)
Definition keepsUrl (ev : Loader.Event) : Prop :=
  match ev with
  | Loader.UrlProp _ => False
  | _ => True
  end.

(** Without a url the slot holds no texture and no cleanup is pending. *)
Definition idle_inv (s : Loader.Slot) : Prop :=
  truthy_url (Loader.dep s) = false ->
  Loader.value s = None /\ Loader.cleanup s = None.

(** The sticker controls of [App]: sliders, reset, clear and the sticker
    file input. *)
Definition isStickerControl (ev : App.Event) : Prop :=
  match ev with
  | App.StickerFile _ _ | App.PositionSlider _ _ | App.RotationSlider _ _
  | App.ScaleSlider _ | App.ResetTransform | App.ClearSticker => True
  | _ => False
  end.

(** How a material object may differ from an earlier state of itself:
    its authored map is untouched, defined [metalness], [roughness] and
    [userData.originalMap] are kept, the patched marker is never taken back,
    and the hook is assigned at most at the moment the marker is set, to a
    closure over this material and the component's two textures. *)
Definition evolves (fallbackTexture noiseTexture : TextureId)
    (k : MaterialId) (mat mat' : Material) : Prop :=
  map mat' = map mat
  /\ (forall v, metalness mat = Some v -> metalness mat' = Some v)
  /\ (forall v, roughness mat = Some v -> roughness mat' = Some v)
  /\ (forall v, originalMap mat = Some v -> originalMap mat' = Some v)
  /\ ((patched mat' = patched mat /\ hookInstalls mat' = hookInstalls mat
       /\ onBeforeCompile mat' = onBeforeCompile mat)
      \/ (patched mat = false /\ patched mat' = true
          /\ hookInstalls mat' = S (hookInstalls mat)
          /\ onBeforeCompile mat' = Some (mkHook k fallbackTexture noiseTexture))).

(** The same for every object of a heap: no object appears or disappears. *)
Definition heap_evolves (fallbackTexture noiseTexture : TextureId)
    (h h' : gmap MaterialId Material) : Prop :=
  forall k, option_Forall2 (evolves fallbackTexture noiseTexture k) (h !! k) (h' !! k).

(** A material as the loader delivers it: unmarked and without hook. *)
Definition unpatched (mat : Material) : Prop :=
  patched mat = false /\ hookInstalls mat = 0 /\ onBeforeCompile mat = None.


(** What the refs of [Model] say about the heap: a listed material is a
    marked object with an original-map record, and a record holds the map
    of its object. *)
Definition refs_inv (st : Model.State) : Prop :=
  forall k,
    (k ∈ Model.materialsRef st ->
       is_Some (Model.originalMaps st !! k) /\
       exists mat, Model.heap st !! k = Some mat /\ patched mat = true)
    /\ (forall v, Model.originalMaps st !! k = Some v ->
       exists mat, Model.heap st !! k = Some mat /\ map mat = v).

(** The ranges the sliders of [App] are declared with ([min] and [max] of
    the three kinds of range input). *)
Definition eventInRange (ev : App.Event) : Prop :=
  match ev with
  | App.PositionSlider _ v => (-1 <= v /\ v <= 1)%Q
  | App.RotationSlider _ v => (-180 <= v /\ v <= 180)%Q
  | App.ScaleSlider v => (0.1 <= v /\ v <= 2)%Q
  | _ => True
  end.

Definition vecWithin (lo hi : Q) (v : Vector3) : Prop :=
  (lo <= vx v /\ vx v <= hi)%Q /\ (lo <= vy v /\ vy v <= hi)%Q
  /\ (lo <= vz v /\ vz v <= hi)%Q.

Definition transformInRange (t : Decal.StickerTransform) : Prop :=
  vecWithin (-1) 1 (Decal.st_position t)
  /\ vecWithin (-180) 180 (Decal.st_rotation t)
  /\ (0.1 <= Decal.st_scale t /\ Decal.st_scale t <= 2)%Q.

(** * Properties *)

(** ** The failure boundary is a two-state machine *)

Lemma componentDidUpdate_error prevKey st :
  Boundary.error (Boundary.componentDidUpdate prevKey st) =
  if decide (prevKey = Boundary.resetKey st) then Boundary.error st else None.
Proof.
  unfold Boundary.componentDidUpdate.
  destruct (String.eqb_spec prevKey (Boundary.resetKey st)) as [Heq|Hne]; simpl.
  - rewrite decide_True by done. done.
  - rewrite decide_False by done.
    case_bool_decide as He; [done|].
    destruct (Boundary.error st) as [e|]; [|done].
    destruct He; eauto.
Qed.

Lemma step_rerendered_error st m t :
  Boundary.error (Boundary.step st (Boundary.Rerendered m t)) =
  if decide (Boundary.resetKey st = Boundary.canvasKey m t)
  then Boundary.error st else None.
Proof. simpl. by rewrite componentDidUpdate_error. Qed.

(** C6.  From Healthy the boundary fails exactly on an error thrown below
    it; from Failed it recovers exactly on a re-render whose reset key (model
    url and texture url joined) differs from the one it holds, so nothing
    else (no retry of its own) leaves Failed; Failed renders the fallback
    notice and Healthy renders the children. *)
Theorem boundary_state_machine (st : Boundary.State) (ev : Boundary.Event) :
  (Boundary.healthy st ->
     (Boundary.failed (Boundary.step st ev) <-> exists e, ev = Boundary.ChildThrew e))
  /\ (Boundary.failed st ->
     (Boundary.healthy (Boundary.step st ev) <->
      exists m t, ev = Boundary.Rerendered m t /\
                  Boundary.canvasKey m t <> Boundary.resetKey st))
  /\ (Boundary.failed st -> Boundary.render st = Boundary.Fallback)
  /\ (Boundary.healthy st -> Boundary.render st = Boundary.Children).
Proof.
  unfold Boundary.healthy, Boundary.failed.
  repeat split.
  - intros Hf. destruct ev as [e|m t]; [eauto|].
    rewrite step_rerendered_error, H in Hf.
    case_decide; by destruct Hf.
  - intros [e ->]. simpl. eauto.
  - destruct ev as [e|m t]; [done|].
    rewrite step_rerendered_error. intros Hh.
    exists m, t. split; [done|]. intros Hk.
    rewrite decide_True in Hh by done. rewrite Hh in H. by destruct H.
  - intros (m & t & -> & Hk). rewrite step_rerendered_error.
    by rewrite decide_False.
  - intros [e He]. unfold Boundary.render. by rewrite He.
  - intros He. unfold Boundary.render. by rewrite He.
Qed.

Lemma boundary_state_machine_witness :
  Boundary.healthy
    (Boundary.step (Boundary.mkState (Some "bad url") "a.glb-none")
                   (Boundary.Rerendered "b.glb" None))
  /\ Boundary.failed
    (Boundary.step (Boundary.constructor "a.glb-none") (Boundary.ChildThrew "bad url"))
  /\ Boundary.render (Boundary.mkState (Some "bad url") "a.glb-none") = Boundary.Fallback
  /\ Boundary.render (Boundary.constructor "a.glb-none") = Boundary.Children.
Proof.
  pose proof (boundary_state_machine (Boundary.mkState (Some "bad url") "a.glb-none")
                (Boundary.Rerendered "b.glb" None)) as (_ & Hrec & Hfb & _).
  pose proof (boundary_state_machine (Boundary.constructor "a.glb-none")
                (Boundary.ChildThrew "bad url")) as (Hfail & _ & _ & Hch).
  assert (Hf : Boundary.failed (Boundary.mkState (Some "bad url") "a.glb-none"))
    by (unfold Boundary.failed; simpl; eauto).
  assert (Hh : Boundary.healthy (Boundary.constructor "a.glb-none")) by reflexivity.
  split; [|split; [|split]].
  - apply (Hrec Hf). exists "b.glb", None. split; [reflexivity|]. discriminate.
  - apply (Hfail Hh). eauto.
  - exact (Hfb Hf).
  - exact (Hch Hh).
Defined.

(** ** Cancellation of superseded loads *)

Section LoaderFacts.
Variable resetFirst : bool.

Lemma runCleanup_none_live s r :
  slot_inv s -> Loader.cancelled r (Loader.runCleanup s) <> Some false.
Proof.
  intros Hinv. unfold Loader.runCleanup.
  destruct (Loader.cleanup s) as [c|] eqn:Hc.
  - unfold Loader.cancelled. simpl. intros Hr.
    destruct (decide (c = r)) as [->|Hne].
    + rewrite list_lookup_alter_eq in Hr.
      destruct (Loader.requests s !! r) as [[u b]|]; simpl in Hr; congruence.
    + rewrite list_lookup_alter_ne in Hr by done.
      destruct (Hinv r Hr) as (Hc' & _). congruence.
  - intros Hr. destruct (Hinv r Hr) as (Hc' & _). congruence.
Qed.

Lemma runCleanup_length s :
  length (Loader.requests (Loader.runCleanup s)) = length (Loader.requests s).
Proof.
  unfold Loader.runCleanup. destruct (Loader.cleanup s); simpl; [|done].
  apply length_alter.
Qed.

Lemma effectBody_inv url s :
  (forall r, Loader.cancelled r s <> Some false) ->
  slot_inv (Loader.effectBody resetFirst url s).
Proof.
  intros Hdead r. unfold Loader.effectBody.
  destruct url as [u|]; [destruct (truthy_url (Some u))|];
    unfold Loader.cancelled; simpl; intros Hr;
    try (exfalso; by apply (Hdead r)).
  destruct (decide (r < length (Loader.requests s))) as [Hlt|Hge].
  - rewrite lookup_app_l in Hr by done. exfalso. by apply (Hdead r).
  - assert (r = length (Loader.requests s)) as ->.
    { assert (Hlen : r < length (Loader.requests s ++ [(u, false)])%list).
      { apply lookup_lt_is_Some_1.
        destruct ((Loader.requests s ++ [(u, false)])%list !! r); [eauto|done]. }
      rewrite List.length_app in Hlen. simpl in Hlen. lia. }
    rewrite List.length_app. simpl. split; [done|]. split; [lia|].
    exists u. by rewrite list_lookup_middle.
Qed.

Lemma mount_inv url : slot_inv (Loader.mount resetFirst url).
Proof. apply effectBody_inv. intros r. unfold Loader.cancelled. simpl. by destruct r. Qed.

Lemma set_value_inv v s : slot_inv s -> slot_inv (Loader.set_value v s).
Proof. intros Hinv r Hr. exact (Hinv r Hr). Qed.

Lemma step_inv s ev : slot_inv s -> slot_inv (Loader.step resetFirst s ev).
Proof.
  intros Hinv. destruct ev as [url|r tex|r|]; simpl.
  - case_decide; [done|]. apply effectBody_inv. intros r. by apply runCleanup_none_live.
  - unfold Loader.onLoad. destruct (Loader.cancelled r s) as [[]|]; auto using set_value_inv.
  - unfold Loader.onError. destruct (Loader.cancelled r s) as [[]|]; auto using set_value_inv.
  - intros r Hr. exfalso. by apply (runCleanup_none_live s r).
Qed.

Lemma run_inv s evs : slot_inv s -> slot_inv (Loader.run resetFirst s evs).
Proof.
  unfold Loader.run. revert s. induction evs as [|ev evs IH]; intros s Hinv; simpl; [done|].
  apply IH. by apply step_inv.
Qed.

(** Once set, a [cancelled] variable stays set. *)
Lemma runCleanup_keeps s r :
  Loader.cancelled r s = Some true -> Loader.cancelled r (Loader.runCleanup s) = Some true.
Proof.
  unfold Loader.runCleanup. destruct (Loader.cleanup s) as [c|]; [|done].
  unfold Loader.cancelled. simpl. intros Hr.
  destruct (decide (c = r)) as [->|Hne].
  - rewrite list_lookup_alter_eq.
    destruct (Loader.requests s !! r) as [[u b]|]; simpl in *; congruence.
  - by rewrite list_lookup_alter_ne.
Qed.

Lemma effectBody_keeps url s r :
  Loader.cancelled r s = Some true ->
  Loader.cancelled r (Loader.effectBody resetFirst url s) = Some true.
Proof.
  unfold Loader.effectBody, Loader.cancelled. intros Hr.
  destruct url as [u|]; [destruct (truthy_url (Some u))|]; simpl; try done.
  rewrite lookup_app_l; [done|].
  apply lookup_lt_is_Some_1. destruct (Loader.requests s !! r); [eauto|done].
Qed.

Lemma step_keeps s ev r :
  Loader.cancelled r s = Some true ->
  Loader.cancelled r (Loader.step resetFirst s ev) = Some true.
Proof.
  intros Hr. destruct ev as [url|r' tex|r'|]; simpl.
  - case_decide; [done|]. by apply effectBody_keeps, runCleanup_keeps.
  - unfold Loader.onLoad. by destruct (Loader.cancelled r' s) as [[]|].
  - unfold Loader.onError. by destruct (Loader.cancelled r' s) as [[]|].
  - by apply runCleanup_keeps.
Qed.

Lemma run_keeps s evs r :
  Loader.cancelled r s = Some true ->
  Loader.cancelled r (Loader.run resetFirst s evs) = Some true.
Proof.
  unfold Loader.run. revert s. induction evs as [|ev evs IH]; intros s Hr; simpl; [done|].
  apply IH. by apply step_keeps.
Qed.

(** A change of the url cancels every request issued before it. *)
Lemma change_cancels s url r :
  slot_inv s -> url <> Loader.dep s -> r < length (Loader.requests s) ->
  Loader.cancelled r (Loader.step resetFirst s (Loader.UrlProp url)) = Some true.
Proof.
  intros Hinv Hne Hlt. simpl. rewrite decide_False by done.
  assert (Hr : Loader.cancelled r (Loader.runCleanup s) = Some true).
  { pose proof (runCleanup_none_live s r Hinv) as Hdead.
    pose proof (runCleanup_length s) as Hlen.
    unfold Loader.cancelled in *.
    destruct (lookup_lt_is_Some_2 (Loader.requests (Loader.runCleanup s)) r) as [[u b] Hub];
      [lia|].
    rewrite Hub in *. simpl in *. destruct b; [done|]. by destruct Hdead. }
  by apply effectBody_keeps.
Qed.
End LoaderFacts.

(** C2.  For the texture effect ([resetFirst = true]) and the sticker
    effect ([resetFirst = false]) alike, in every state a mounted effect
    can reach: a completion callback gets past its [cancelled] check only
    for the request issued last, which was issued for the current url; and
    once the url has changed, the success and the error callback of every
    request issued before the change leave the state as it is, whatever
    happens in between. *)
Theorem stale_load_never_committed
    (resetFirst : bool) (url0 url : option string)
    (before after : list Loader.Event) (r : nat) (tex : TextureId) :
  let s := Loader.run resetFirst (Loader.mount resetFirst url0) before in
  let s' := Loader.run resetFirst
              (Loader.step resetFirst s (Loader.UrlProp url)) after in
  (forall q, Loader.commits q s ->
     Loader.latest s = Some q /\
     fst <$> Loader.requests s !! q = Loader.dep s)
  /\ (r < length (Loader.requests s) -> url <> Loader.dep s ->
      Loader.onLoad r tex s' = s' /\ Loader.onError r s' = s'
      /\ ~ Loader.commits r s').
Proof.
  intros s s'.
  assert (Hinv : slot_inv s) by apply run_inv, mount_inv.
  split.
  - intros q Hq. destruct (Hinv q Hq) as (_ & Hlen & u & Hu & Hdep).
    unfold Loader.latest. rewrite <- Hlen. split; [done|].
    by rewrite Hu, Hdep.
  - intros Hlt Hne.
    assert (Hc : Loader.cancelled r s' = Some true).
    { apply run_keeps. by apply change_cancels. }
    unfold Loader.onLoad, Loader.onError, Loader.commits. rewrite Hc.
    repeat split; congruence.
Qed.

Lemma stale_load_never_committed_witness :
  let s' := Loader.run true
              (Loader.step true (Loader.mount true (Some "metal.jpg"))
                 (Loader.UrlProp (Some "uv_grid.jpg")))
              [Loader.Loaded 1 7] in
  Loader.value s' = Some 7 /\
  Loader.onLoad 0 5 s' = s' /\ Loader.onError 0 s' = s' /\ ~ Loader.commits 0 s'.
Proof.
  split; [reflexivity|].
  apply (stale_load_never_committed true (Some "metal.jpg") (Some "uv_grid.jpg")
           [] [Loader.Loaded 1 7] 0 5).
  - simpl. lia.
  - discriminate.
Defined.

(** ** Failed texture and sticker loads *)

(** C7, as amended.  When the load that failed is the live one, the override
    texture (respectively the sticker texture) becomes null; the error
    callback does nothing else: the other slot, the failure boundary and the
    console are what they were, so the failure is neither escalated nor
    logged by this code.  The failure of a superseded load changes
    nothing at all. *)
Theorem load_failure_degrades_silently (v : Viewer.State) (r : nat) :
  let vt := Viewer.step v (Viewer.TextureEv (Loader.Failed r)) in
  let vs := Viewer.step v (Viewer.StickerEv (Loader.Failed r)) in
  (Loader.commits r (Viewer.textureSlot v) -> Viewer.texture vt = None)
  /\ (Loader.commits r (Viewer.stickerSlot v) -> Viewer.stickerTexture vs = None)
  /\ (~ Loader.commits r (Viewer.textureSlot v) -> vt = v)
  /\ (~ Loader.commits r (Viewer.stickerSlot v) -> vs = v)
  /\ Viewer.stickerSlot vt = Viewer.stickerSlot v
  /\ Viewer.textureSlot vs = Viewer.textureSlot v
  /\ Viewer.boundary vt = Viewer.boundary v /\ Viewer.boundary vs = Viewer.boundary v
  /\ Viewer.console vt = Viewer.console v /\ Viewer.console vs = Viewer.console v.
Proof.
  unfold Loader.commits. simpl. unfold Viewer.texture, Viewer.stickerTexture, Loader.onError.
  destruct v as [ts ss bd cs]. simpl.
  split; [by intros ->|]. split; [by intros ->|].
  split.
  { intros Hn. destruct (Loader.cancelled r ts) as [[]|]; done. }
  split.
  { intros Hn. destruct (Loader.cancelled r ss) as [[]|]; done. }
  done.
Qed.

Lemma load_failure_degrades_silently_witness :
  let v := Viewer.step (Viewer.mount "duck.glb" (Some "metal.jpg") (Some "star.png"))
             (Viewer.StickerEv (Loader.Loaded 0 9)) in
  Viewer.texture (Viewer.step v (Viewer.TextureEv (Loader.Failed 0))) = None
  /\ Viewer.stickerTexture (Viewer.step v (Viewer.StickerEv (Loader.Failed 0))) = None
  /\ Viewer.step v (Viewer.TextureEv (Loader.Failed 3)) = v
  /\ Viewer.step v (Viewer.StickerEv (Loader.Failed 3)) = v.
Proof.
  pose proof (load_failure_degrades_silently
    (Viewer.step (Viewer.mount "duck.glb" (Some "metal.jpg") (Some "star.png"))
       (Viewer.StickerEv (Loader.Loaded 0 9))) 0) as (Ht & Hs & _).
  pose proof (load_failure_degrades_silently
    (Viewer.step (Viewer.mount "duck.glb" (Some "metal.jpg") (Some "star.png"))
       (Viewer.StickerEv (Loader.Loaded 0 9))) 3) as (_ & _ & Ht' & Hs' & _).
  split; [apply Ht; reflexivity|].
  split; [apply Hs; reflexivity|].
  split; [apply Ht'; discriminate|apply Hs'; discriminate].
Defined.

(** The specification has the failure logged; a failed live texture load
    (and a failed live sticker load) leaves the console as empty as it
    was. *)
Lemma load_failure_is_not_logged :
  let v := Viewer.mount "duck.glb" (Some "metal.jpg") (Some "star.png") in
  let vt := Viewer.step v (Viewer.TextureEv (Loader.Failed 0)) in
  let vs := Viewer.step v (Viewer.StickerEv (Loader.Failed 0)) in
  Loader.commits 0 (Viewer.textureSlot v) /\ Loader.commits 0 (Viewer.stickerSlot v)
  /\ ~ (Viewer.texture vt = None /\ Viewer.console vt <> Viewer.console v)
  /\ ~ (Viewer.stickerTexture vs = None /\ Viewer.console vs <> Viewer.console v).
Proof.
  repeat split; intros [_ Hlog]; by apply Hlog.
Qed.

(** ** The material patch effect *)

Section PatchFacts.
Variables fallbackTexture noiseTexture : TextureId.

Local Abbreviation patchMaterial := (Model.patchMaterial fallbackTexture noiseTexture).
Local Abbreviation patchEffect := (Model.patchEffect fallbackTexture noiseTexture).
Local Abbreviation once := (patchOnce fallbackTexture noiseTexture).

Lemma patchOnce_patched m mat : patched (once m mat) = true.
Proof. unfold patchOnce, Model.installHook. by destruct (patched mat) eqn:Hp. Qed.

Lemma patchOnce_installs m mat :
  hookInstalls (once m mat) =
  if patched mat then hookInstalls mat else S (hookInstalls mat).
Proof. unfold patchOnce, Model.installHook. by destruct (patched mat). Qed.

Lemma patchOnce_idem m mat : once m (once m mat) = once m mat.
Proof.
  unfold patchOnce at 1. unfold Model.installHook at 1.
  rewrite patchOnce_patched.
  unfold patchOnce, Model.installHook, Model.fillDefaults.
  destruct mat as [mp me ro nu ob hi pa bu om cm tp].
  destruct pa, me, ro, om; simpl; try reflexivity; by destruct mp.
Qed.

(** *** One material *)

Lemma patchMaterial_heap st m k :
  Model.heap (patchMaterial st m) !! k =
  if decide (k = m) then once m <$> Model.heap st !! m else Model.heap st !! k.
Proof.
  unfold Model.patchMaterial.
  destruct (Model.heap st !! m) as [mat|] eqn:Hm; simpl.
  - case_decide as Hk.
    + subst k. by rewrite lookup_insert_eq.
    + by rewrite lookup_insert_ne.
  - case_decide as Hk; [by subst k|done].
Qed.

Lemma patchMaterial_target st m :
  Model.stickerTargetRef (patchMaterial st m) = Model.stickerTargetRef st.
Proof. unfold Model.patchMaterial. by destruct (Model.heap st !! m). Qed.

Lemma patchMaterial_group st m :
  Model.groupRef (patchMaterial st m) = Model.groupRef st.
Proof. unfold Model.patchMaterial. by destruct (Model.heap st !! m). Qed.

Lemma patchMaterial_set_target t st m :
  patchMaterial (Model.set_stickerTargetRef t st) m =
  Model.set_stickerTargetRef t (patchMaterial st m).
Proof.
  unfold Model.patchMaterial. simpl. by destruct (Model.heap st !! m).
Qed.

Lemma patchMaterial_refs st m k :
  k ∈ Model.materialsRef (patchMaterial st m) <->
  k ∈ Model.materialsRef st \/ (k = m /\ is_Some (Model.heap st !! m)).
Proof.
  unfold Model.patchMaterial.
  destruct (Model.heap st !! m) as [mat|] eqn:Hm; simpl.
  - case_decide as Hin.
    + split; [auto|]. intros [?|[-> _]]; done.
    + rewrite elem_of_app, list_elem_of_singleton. split.
      * intros [? | ->]; eauto.
      * intros [?|[-> _]]; auto.
  - split; [auto|]. intros [?|[_ [? ?]]]; done.
Qed.

Lemma patchMaterial_NoDup st m :
  NoDup (Model.materialsRef st) -> NoDup (Model.materialsRef (patchMaterial st m)).
Proof.
  intros Hnd. unfold Model.patchMaterial.
  destruct (Model.heap st !! m) as [mat|]; simpl; [|done].
  case_decide as Hin; [done|].
  apply NoDup_app. split; [done|]. split; [|apply NoDup_singleton].
  intros x Hx Hy. apply list_elem_of_singleton in Hy. by subst x.
Qed.

Lemma patchMaterial_originalMaps st m k :
  is_Some (Model.originalMaps (patchMaterial st m) !! k) <->
  is_Some (Model.originalMaps st !! k) \/ (k = m /\ is_Some (Model.heap st !! m)).
Proof.
  unfold Model.patchMaterial.
  destruct (Model.heap st !! m) as [mat|] eqn:Hm; simpl.
  - case_decide as Hin.
    + split; [auto|]. intros [?|[-> _]]; done.
    + rewrite lookup_insert. case_decide as Hk.
      * subst k. split; eauto.
      * split; [auto|]. intros [?|[-> _]]; done.
  - split; [auto|]. intros [?|[_ [? ?]]]; done.
Qed.

Lemma patchMaterial_originalMaps_keeps st m k v :
  Model.originalMaps st !! k = Some v ->
  Model.originalMaps (patchMaterial st m) !! k = Some v.
Proof.
  intros Hk. unfold Model.patchMaterial.
  destruct (Model.heap st !! m) as [mat|]; simpl; [|done].
  case_decide as Hin; [done|].
  rewrite lookup_insert_ne; [done|]. intros ->. apply Hin. eauto.
Qed.
(** *** A run of the callback over a list of materials *)

Lemma fold_patch_heap ms st k :
  Model.heap (foldl patchMaterial st ms) !! k =
  if decide (k ∈ ms) then once k <$> Model.heap st !! k else Model.heap st !! k.
Proof.
  revert st. induction ms as [|m ms IH]; intros st; [done|].
  cbn [foldl].
  - rewrite IH, !patchMaterial_heap.
    destruct (decide (k = m)) as [->|Hne].
    + rewrite (decide_True (P := m ∈ m :: ms)) by apply list_elem_of_here.
      case_decide; [|done].
      destruct (Model.heap st !! m) as [mat|]; simpl; [|done].
      by rewrite patchOnce_idem.
    + destruct (decide (k ∈ ms)) as [Hin|Hnin].
      * rewrite decide_True; [done|]. by apply list_elem_of_further.
      * rewrite decide_False; [done|]. by intros [?|?]%elem_of_cons.
Qed.

Lemma fold_patch_target ms st :
  Model.stickerTargetRef (foldl patchMaterial st ms) = Model.stickerTargetRef st.
Proof.
  revert st. induction ms as [|m ms IH]; intros st; simpl; [done|].
  by rewrite IH, patchMaterial_target.
Qed.

Lemma fold_patch_group ms st :
  Model.groupRef (foldl patchMaterial st ms) = Model.groupRef st.
Proof.
  revert st. induction ms as [|m ms IH]; intros st; simpl; [done|].
  by rewrite IH, patchMaterial_group.
Qed.

Lemma fold_patch_set_target t ms st :
  foldl patchMaterial (Model.set_stickerTargetRef t st) ms =
  Model.set_stickerTargetRef t (foldl patchMaterial st ms).
Proof.
  revert st. induction ms as [|m ms IH]; intros st; simpl; [done|].
  by rewrite patchMaterial_set_target, IH.
Qed.

Lemma fold_patch_refs ms st k :
  k ∈ Model.materialsRef (foldl patchMaterial st ms) <->
  k ∈ Model.materialsRef st \/ (k ∈ ms /\ is_Some (Model.heap st !! k)).
Proof.
  revert st. induction ms as [|m ms IH]; intros st; simpl.
  - split; [auto|]. intros [?|[Hk _]]; [done|]. by apply not_elem_of_nil in Hk.
  - rewrite IH, patchMaterial_refs, patchMaterial_heap, elem_of_cons.
    split.
    + intros [[?|[-> ?]]|[Hin Hs]]; [auto|auto|].
      right. split; [auto|]. case_decide as Hk; [|done].
      subst k. destruct (Model.heap st !! m); [eauto|]. by destruct Hs.
    + intros [?|[[->|Hin] Hs]]; [auto|auto|].
      right. split; [done|]. case_decide as Hk; [|done].
      subst k. destruct Hs as [mat ->]. simpl. eauto.
Qed.

Lemma fold_patch_NoDup ms st :
  NoDup (Model.materialsRef st) -> NoDup (Model.materialsRef (foldl patchMaterial st ms)).
Proof.
  revert st. induction ms as [|m ms IH]; intros st Hnd; simpl; [done|].
  by apply IH, patchMaterial_NoDup.
Qed.

Lemma fold_patch_originalMaps ms st k :
  is_Some (Model.originalMaps (foldl patchMaterial st ms) !! k) <->
  is_Some (Model.originalMaps st !! k) \/ (k ∈ ms /\ is_Some (Model.heap st !! k)).
Proof.
  revert st. induction ms as [|m ms IH]; intros st; simpl.
  - split; [auto|]. intros [?|[Hk _]]; [done|]. by apply not_elem_of_nil in Hk.
  - rewrite IH, patchMaterial_originalMaps, patchMaterial_heap, elem_of_cons.
    split.
    + intros [[?|[-> ?]]|[Hin Hs]]; [auto|auto|].
      right. split; [auto|]. case_decide as Hk; [|done].
      subst k. destruct (Model.heap st !! m); [eauto|]. by destruct Hs.
    + intros [?|[[->|Hin] Hs]]; [auto|auto|].
      right. split; [done|]. case_decide as Hk; [|done].
      subst k. destruct Hs as [mat ->]. simpl. eauto.
Qed.

(** *** The whole effect *)

Lemma fold_visit os st :
  foldl (Model.visit fallbackTexture noiseTexture) st os =
  Model.set_stickerTargetRef
    (firstTarget (Model.stickerTargetRef st) (omap meshOf os))
    (foldl patchMaterial st (flat_map materialsOf os)).
Proof.
  revert st. induction os as [|o os IH]; intros st; simpl.
  - unfold firstTarget. destruct st as [h om mr [t|] gr]; reflexivity.
  - rewrite IH. destruct o as [cs|id mm co cs]; simpl; [done|].
    rewrite foldl_app, !fold_patch_set_target.
    unfold firstTarget, Model.set_stickerTargetRef. simpl.
    by destruct (Model.stickerTargetRef st).
Qed.

Lemma patchEffect_unfold scene st :
  patchEffect scene st =
  Model.set_stickerTargetRef
    (firstTarget (Model.stickerTargetRef st) (sceneMeshes scene))
    (foldl patchMaterial st (sceneMaterials scene)).
Proof. apply fold_visit. Qed.

Lemma patchEffect_heap scene st k :
  Model.heap (patchEffect scene st) !! k =
  if decide (k ∈ sceneMaterials scene) then once k <$> Model.heap st !! k
  else Model.heap st !! k.
Proof. rewrite patchEffect_unfold. simpl. apply fold_patch_heap. Qed.

Lemma patchEffect_refs scene st k :
  k ∈ Model.materialsRef (patchEffect scene st) <->
  k ∈ Model.materialsRef st \/
  (k ∈ sceneMaterials scene /\ is_Some (Model.heap st !! k)).
Proof. rewrite patchEffect_unfold. simpl. apply fold_patch_refs. Qed.

Lemma patchEffect_originalMaps scene st k :
  is_Some (Model.originalMaps (patchEffect scene st) !! k) <->
  is_Some (Model.originalMaps st !! k) \/
  (k ∈ sceneMaterials scene /\ is_Some (Model.heap st !! k)).
Proof. rewrite patchEffect_unfold. simpl. apply fold_patch_originalMaps. Qed.

Lemma patchEffect_NoDup scene st :
  NoDup (Model.materialsRef st) -> NoDup (Model.materialsRef (patchEffect scene st)).
Proof. rewrite patchEffect_unfold. simpl. apply fold_patch_NoDup. Qed.

Lemma patchEffect_target scene st :
  Model.stickerTargetRef (patchEffect scene st) =
  firstTarget (Model.stickerTargetRef st) (sceneMeshes scene).
Proof. by rewrite patchEffect_unfold. Qed.

Lemma patchEffect_group scene st :
  Model.groupRef (patchEffect scene st) = Model.groupRef st.
Proof. rewrite patchEffect_unfold. simpl. apply fold_patch_group. Qed.
(** *** Running the effect again *)

Lemma patchMaterial_settled st m :
  settled fallbackTexture noiseTexture st m -> patchMaterial st m = st.
Proof.
  intros Hs. unfold Model.patchMaterial.
  destruct (Model.heap st !! m) as [mat|] eqn:Hm; [|done].
  destruct (Hs mat Hm) as (Honce & Hin & Hom).
  fold (once m mat). rewrite Honce, insert_id by done.
  rewrite !decide_True by done. by destruct st.
Qed.

Lemma fold_patch_settled ms st :
  (forall k, k ∈ ms -> settled fallbackTexture noiseTexture st k) ->
  foldl patchMaterial st ms = st.
Proof.
  induction ms as [|m ms IH]; intros Hs; simpl; [done|].
  rewrite patchMaterial_settled by (apply Hs, list_elem_of_here).
  apply IH. intros k Hk. by apply Hs, list_elem_of_further.
Qed.

Lemma fold_patch_settles ms st k :
  k ∈ ms -> settled fallbackTexture noiseTexture (foldl patchMaterial st ms) k.
Proof.
  intros Hk mat Hmat.
  rewrite fold_patch_heap, decide_True in Hmat by done.
  destruct (Model.heap st !! k) as [mat0|] eqn:H0; simpl in Hmat; [|done].
  injection Hmat as <-. split; [apply patchOnce_idem|]. split.
  - apply fold_patch_refs. right. rewrite H0. eauto.
  - apply fold_patch_originalMaps. right. rewrite H0. eauto.
Qed.

Lemma patchEffect_idem scene st :
  patchEffect scene (patchEffect scene st) = patchEffect scene st.
Proof.
  rewrite (patchEffect_unfold scene (patchEffect scene st)), patchEffect_target.
  rewrite (patchEffect_unfold scene st), fold_patch_set_target.
  rewrite fold_patch_settled by (intros k Hk; by apply fold_patch_settles).
  unfold Model.set_stickerTargetRef, firstTarget. simpl.
  destruct (Model.stickerTargetRef st); [done|].
  by destruct (head (sceneMeshes scene)).
Qed.

Lemma patchEffect_iter scene st n :
  Nat.iter (S n) (patchEffect scene) st = patchEffect scene st.
Proof.
  induction n as [|n IH]; [done|].
  change (Nat.iter (S (S n)) (patchEffect scene) st)
    with (patchEffect scene (Nat.iter (S n) (patchEffect scene) st)).
  by rewrite IH, patchEffect_idem.
Qed.

Lemma elem_of_markedMaterials h k :
  k ∈ markedMaterials h <-> exists mat, h !! k = Some mat /\ patched mat = true.
Proof.
  unfold markedMaterials. rewrite elem_of_dom. split.
  - intros [mat Hm]. apply map_lookup_filter_Some in Hm. eauto.
  - intros (mat & Hm & Hp). exists mat. by apply map_lookup_filter_Some.
Qed.
End PatchFacts.

(** C3.  Running the patch effect any number of times in succession
    ([S n] runs, in particular two) leaves exactly the state one run
    leaves.  Every material of the scene is then marked, its hook has been
    assigned once if it was unmarked before the runs and not at all if it
    was already marked, and it is in the patched-materials list and has an
    original-map record whatever the refs held before.  On a scene whose
    materials start unmarked the marked materials are the distinct
    materials of the scene, so their number is the number of distinct
    materials. *)
Theorem patch_installs_hook_once
    (fallbackTexture noiseTexture : TextureId) (scene : Object3D)
    (st : Model.State) (n : nat) :
  let patch := Model.patchEffect fallbackTexture noiseTexture scene in
  let stn := Nat.iter (S n) patch st in
  stn = patch st
  /\ (forall k mat, k ∈ sceneMaterials scene -> Model.heap st !! k = Some mat ->
        exists mat', Model.heap stn !! k = Some mat' /\ patched mat' = true /\
          hookInstalls mat' =
            (if patched mat then hookInstalls mat else S (hookInstalls mat)) /\
          k ∈ Model.materialsRef stn /\ is_Some (Model.originalMaps stn !! k))
  /\ (map_Forall (fun _ mat => patched mat = false /\ hookInstalls mat = 0)
        (Model.heap st) ->
      Forall (fun k => is_Some (Model.heap st !! k)) (sceneMaterials scene) ->
      markedMaterials (Model.heap stn) = list_to_set (sceneMaterials scene) /\
      size (markedMaterials (Model.heap stn)) =
        size (list_to_set (sceneMaterials scene) : gset MaterialId) /\
      Forall (fun k => hookInstalls <$> Model.heap stn !! k = Some 1)
        (sceneMaterials scene)).
Proof.
  intros patch stn. unfold stn, patch. rewrite patchEffect_iter.
  split; [done|]. split.
  - intros k mat Hk Hmat. exists (patchOnce fallbackTexture noiseTexture k mat).
    rewrite patchEffect_heap, decide_True, Hmat by done.
    split; [done|]. split; [apply patchOnce_patched|].
    split; [apply patchOnce_installs|]. split.
    + apply patchEffect_refs. right. rewrite Hmat. eauto.
    + apply patchEffect_originalMaps. right. rewrite Hmat. eauto.
  - intros Hfresh Hheap.
    assert (Heq : markedMaterials
                    (Model.heap (Model.patchEffect fallbackTexture noiseTexture scene st))
                  = list_to_set (sceneMaterials scene)).
    { apply set_eq. intros k.
      rewrite elem_of_markedMaterials, elem_of_list_to_set, patchEffect_heap.
      split.
      - intros (mat & Hm & Hp). case_decide as Hk; [done|].
        apply Hfresh in Hm. simpl in Hm. destruct Hm. congruence.
      - intros Hk. rewrite decide_True by done.
        rewrite Forall_forall in Hheap. destruct (Hheap k Hk) as [mat ->].
        eexists. split; [done|]. apply patchOnce_patched. }
    rewrite Heq. split; [done|]. split; [done|].
    rewrite Forall_forall in Hheap. apply Forall_forall. intros k Hk.
    destruct (Hheap k Hk) as [mat Hmat].
    rewrite patchEffect_heap, decide_True, Hmat by done.
    pose proof (patchOnce_installs fallbackTexture noiseTexture k mat) as Hins.
    destruct (Hfresh k mat Hmat) as [Hp Hi]. rewrite Hp, Hi in Hins.
    exact (f_equal Some Hins).
Qed.

Lemma patch_installs_hook_once_witness :
  let h : gmap MaterialId Material :=
    <[10 := freshMaterial (Some 1)]> (<[20 := freshMaterial None]> ∅) in
  let scene := Obj [Mesh 1 (Single 10) [] [Mesh 2 (Multi [10; 20]) [] []]] in
  let stn := Nat.iter 2 (Model.patchEffect 0 1 scene) (Model.mounted h) in
  size (markedMaterials (Model.heap stn)) = 2
  /\ hookInstalls <$> Model.heap stn !! 10 = Some 1
  /\ Model.materialsRef stn = [10; 20].
Proof.
  intros h scene stn.
  pose proof (patch_installs_hook_once 0 1 scene (Model.mounted h) 1) as (_ & _ & Hcount).
  destruct Hcount as (_ & Hsize & Hone).
  - apply map_Forall_insert_2; [done|]. apply map_Forall_insert_2; [done|].
    apply map_Forall_empty.
  - repeat constructor; simpl; eauto.
  - split; [exact Hsize|]. split; [|reflexivity].
    apply (proj1 (Forall_forall _ _) Hone). apply list_elem_of_here.
Defined.

(** ** The patched-materials list and the per-frame update *)

Lemma foldl_alter_lookup (f : MaterialId -> Material -> Material)
    (l : list MaterialId) (h : gmap MaterialId Material) (k : MaterialId) :
  NoDup l ->
  foldl (fun h m => alter (f m) m h) h l !! k =
  if decide (k ∈ l) then f k <$> h !! k else h !! k.
Proof.
  revert h. induction l as [|m l IH]; intros h Hnd; [done|].
  apply NoDup_cons in Hnd as [Hm Hnd]. cbn [foldl]. rewrite IH by done.
  destruct (decide (k = m)) as [->|Hne].
  - rewrite decide_False by done.
    rewrite decide_True by apply list_elem_of_here.
    apply lookup_alter_eq.
  - rewrite lookup_alter_ne by done.
    destruct (decide (k ∈ l)) as [Hin|Hnin].
    + rewrite decide_True; [done|]. by apply list_elem_of_further.
    + rewrite decide_False; [done|]. by intros [?|?]%elem_of_cons.
Qed.

Lemma useFrame_heap delta st k :
  NoDup (Model.materialsRef st) ->
  Model.heap (Model.useFrame delta st) !! k =
  if decide (k ∈ Model.materialsRef st) then Model.advance delta <$> Model.heap st !! k
  else Model.heap st !! k.
Proof. intros Hnd. simpl. by apply (foldl_alter_lookup (fun _ => Model.advance delta)). Qed.

Lemma textureEffect_heap fallbackTexture texture st k :
  NoDup (Model.materialsRef st) ->
  Model.heap (Model.textureEffect fallbackTexture texture st) !! k =
  if decide (k ∈ Model.materialsRef st)
  then Model.retarget fallbackTexture texture (Model.originalMaps st) k <$> Model.heap st !! k
  else Model.heap st !! k.
Proof. intros Hnd. simpl. by apply foldl_alter_lookup. Qed.

Lemma compile_refs m st :
  Model.materialsRef (Model.compile m st) = Model.materialsRef st.
Proof.
  unfold Model.compile.
  destruct (Model.heap st !! m) as [mat|]; [|done].
  by destruct (onBeforeCompile mat).
Qed.

Lemma autoFrame_refs scene st :
  Model.materialsRef (AutoFrame.autoFrame scene st) = Model.materialsRef st.
Proof. unfold AutoFrame.autoFrame. by destruct (Model.groupRef st). Qed.

Lemma step_NoDup fallbackTexture noiseTexture st ev :
  NoDup (Model.materialsRef st) ->
  NoDup (Model.materialsRef (Session.step fallbackTexture noiseTexture st ev)).
Proof.
  intros Hnd. destruct ev as [scene|texture|m|delta|scene]; simpl; try done.
  - by apply patchEffect_NoDup.
  - by rewrite compile_refs.
  - by rewrite autoFrame_refs.
Qed.

Lemma run_NoDup fallbackTexture noiseTexture st evs :
  NoDup (Model.materialsRef st) ->
  NoDup (Model.materialsRef (Session.run fallbackTexture noiseTexture st evs)).
Proof.
  unfold Session.run. revert st.
  induction evs as [|ev evs IH]; intros st Hnd; simpl; [done|].
  by apply IH, step_NoDup.
Qed.

(** C10.  In every state a mounted [Model] can reach, whatever scenes were
    patched, textures applied, materials compiled and frames rendered, the
    patched-materials list has no duplicates; hence one frame applies the
    per-material update exactly once to every listed material and not at all
    to any other. *)
Theorem materials_listed_once
    (fallbackTexture noiseTexture : TextureId)
    (h : gmap MaterialId Material) (evs : list Session.Event)
    (delta : Q) (k : MaterialId) :
  let st := Session.run fallbackTexture noiseTexture (Model.mounted h) evs in
  NoDup (Model.materialsRef st)
  /\ Model.heap (Model.useFrame delta st) !! k =
     (if decide (k ∈ Model.materialsRef st)
      then Model.advance delta <$> Model.heap st !! k
      else Model.heap st !! k).
Proof.
  intros st.
  assert (Hnd : NoDup (Model.materialsRef st)).
  { apply run_NoDup. simpl. apply NoDup_nil_2. }
  split; [done|]. by apply useFrame_heap.
Qed.

(** ** The cross-fade animator *)

Lemma Qltb_lt x y : Qltb x y = true <-> (x < y)%Q.
Proof.
  unfold Qltb. rewrite negb_true_iff. split.
  - intros H. apply Qnot_le_lt. intros Hle. apply Qle_bool_iff in Hle. congruence.
  - intros H. destruct (Qle_bool y x) eqn:E; [|done].
    apply Qle_bool_iff in E. lra.
Qed.

Lemma Qltb_ge x y : Qltb x y = false <-> (y <= x)%Q.
Proof.
  unfold Qltb. rewrite negb_false_iff. apply Qle_bool_iff.
Qed.










Lemma advance_without_uniforms d mat :
  blendUniforms mat = None -> Model.advance d mat = mat.
Proof. intros Hbu. unfold Model.advance. by rewrite Hbu. Qed.








(** ** Stale refs after a model change *)

(** The patch effect only ever adds to the refs: a listed material stays
    listed and a decal target, once set, is kept, whatever scene is patched
    next. *)
Lemma patchEffect_keeps_refs fallbackTexture noiseTexture scene st :
  (forall k, k ∈ Model.materialsRef st ->
     k ∈ Model.materialsRef (Model.patchEffect fallbackTexture noiseTexture scene st))
  /\ (forall t, Model.stickerTargetRef st = Some t ->
     Model.stickerTargetRef (Model.patchEffect fallbackTexture noiseTexture scene st) = Some t).
Proof.
  split.
  - intros k Hk. apply patchEffect_refs. by left.
  - intros t Ht. rewrite patchEffect_target, Ht. done.
Qed.

(** C9, on the failing input.  A [Model] mounts with model A (mesh 1,
    material 10) and the selection changes to model B (mesh 2, material 20):
    after the patch effect has run on B's scene the patched-materials list
    still holds A's material 10 and the decal target is still A's mesh 1,
    neither of which belongs to B. *)
Theorem model_change_keeps_previous_refs :
  let h : gmap MaterialId Material :=
    <[10 := freshMaterial (Some 1)]> (<[20 := freshMaterial (Some 2)]> ∅) in
  let sceneA := Obj [Mesh 1 (Single 10) [] []] in
  let sceneB := Obj [Mesh 2 (Single 20) [] []] in
  let st := Session.run 0 1 (Model.mounted h)
              [Session.Patch sceneA; Session.Patch sceneB] in
  sceneMaterials sceneB = [20] /\ sceneMeshes sceneB = [2]
  /\ Model.materialsRef st = [10; 20]
  /\ Model.stickerTargetRef st = Some 1.
Proof. repeat split; reflexivity. Qed.

(** ** The decal *)

(** On the first scene a mounted [Model] patches, the decal target is the
    first mesh of the traversal, and running the effect again on that scene
    keeps it. *)
Lemma decal_target_first_mesh fallbackTexture noiseTexture h scene n :
  Model.stickerTargetRef
    (Nat.iter (S n) (Model.patchEffect fallbackTexture noiseTexture scene)
       (Model.mounted h)) = head (sceneMeshes scene).
Proof. by rewrite patchEffect_iter, patchEffect_target. Qed.

(** The decal is rendered exactly when texture, transform and target are
    all present, at the transform's position and scale and with each
    rotation component turned from degrees into radians. *)
Lemma decal_render_spec stickerTexture stickerTransform st props :
  Decal.render stickerTexture stickerTransform st = Some props <->
  exists tex tr target,
    stickerTexture = Some tex /\ stickerTransform = Some tr /\
    Model.stickerTargetRef st = Some target /\
    props = Decal.mkProps target (Decal.st_position tr)
              (vec3 (vx (Decal.st_rotation tr) * Math_PI / 180)
                    (vy (Decal.st_rotation tr) * Math_PI / 180)
                    (vz (Decal.st_rotation tr) * Math_PI / 180))
              (Decal.st_scale tr) tex.
Proof.
  unfold Decal.render. split.
  - destruct stickerTexture as [tex|], stickerTransform as [tr|],
      (Model.stickerTargetRef st) as [target|]; try done.
    intros [= <-]. by exists tex, tr, target.
  - intros (tex & tr & target & -> & -> & -> & ->). done.
Qed.

(** C8, on the failing input.  After the change from model A (mesh 1) to
    model B (mesh 2) a sticker with its transform is projected onto mesh 1,
    which is not a mesh of the loaded scene; the first mesh of B's traversal
    is mesh 2. *)
Theorem decal_targets_previous_model :
  let h : gmap MaterialId Material :=
    <[10 := freshMaterial (Some 1)]> (<[20 := freshMaterial (Some 2)]> ∅) in
  let sceneA := Obj [Mesh 1 (Single 10) [] []] in
  let sceneB := Obj [Mesh 2 (Single 20) [] []] in
  let st := Session.run 0 1 (Model.mounted h)
              [Session.Patch sceneA; Session.Patch sceneB] in
  let tr := Decal.mkTransform (vec3 0 0.25 0) (vec3 90 0 0) 0.5 in
  Decal.mesh <$> Decal.render (Some 9) (Some tr) st = Some 1
  /\ head (sceneMeshes sceneB) = Some 2
  /\ 1 ∉ sceneMeshes sceneB.
Proof.
  split; [reflexivity|]. split; [reflexivity|].
  simpl. intros Hin. apply list_elem_of_singleton in Hin. discriminate.
Qed.

(** ** The auto-frame step *)

Lemma Qmin_affine a a' x s p :
  (0 <= s)%Q -> (a' == a * s + p)%Q ->
  (Qmin a' (x * s + p) == Qmin a x * s + p)%Q.
Proof.
  intros Hs Ha.
  destruct (Q.min_spec a x) as [[Hlt ->]|[Hle ->]].
  - rewrite Q.min_l; [done|]. rewrite Ha.
    apply Qplus_le_compat; [|lra]. apply Qmult_le_compat_r; lra.
  - rewrite Q.min_r; [reflexivity|]. rewrite Ha.
    apply Qplus_le_compat; [|lra]. by apply Qmult_le_compat_r.
Qed.

Lemma Qmax_affine a a' x s p :
  (0 <= s)%Q -> (a' == a * s + p)%Q ->
  (Qmax a' (x * s + p) == Qmax a x * s + p)%Q.
Proof.
  intros Hs Ha.
  destruct (Q.max_spec a x) as [[Hlt ->]|[Hle ->]].
  - rewrite Q.max_r; [reflexivity|]. rewrite Ha.
    apply Qplus_le_compat; [|lra]. apply Qmult_le_compat_r; lra.
  - rewrite Q.max_l; [done|]. rewrite Ha.
    apply Qplus_le_compat; [|lra]. by apply Qmult_le_compat_r.
Qed.

Lemma Qmax_scale a b s : (0 <= s)%Q -> (Qmax (a * s) (b * s) == Qmax a b * s)%Q.
Proof.
  intros Hs.
  assert (H : (Qmax (a * s + 0) (b * s + 0) == Qmax a b * s + 0)%Q)
    by (apply Qmax_affine; [done|reflexivity]).
  rewrite !Qplus_0_r in H. exact H.
Qed.

Lemma fold_expand lo hi pts :
  foldl Box3.expandByPoint (Some (lo, hi)) pts =
  Some (foldl Vec.min lo pts, foldl Vec.max hi pts).
Proof.
  revert lo hi. induction pts as [|pt pts IH]; intros lo hi; simpl; [done|].
  apply IH.
Qed.

Lemma setFromPoints_cons pt pts :
  Box3.setFromPoints (pt :: pts) = Some (foldl Vec.min pt pts, foldl Vec.max pt pts).
Proof. unfold Box3.setFromPoints. simpl. apply fold_expand. Qed.

Section WorldBox.
Variable g : Group.
Hypothesis scale_x : (0 <= vx (scale g))%Q.
Hypothesis scale_y : (0 <= vy (scale g))%Q.
Hypothesis scale_z : (0 <= vz (scale g))%Q.

Lemma fold_min_world lo lo' pts :
  Vec.eqv lo' (Box3.toWorld g lo) ->
  Vec.eqv (foldl Vec.min lo' (Box3.toWorld g <$> pts))
          (Box3.toWorld g (foldl Vec.min lo pts)).
Proof.
  revert lo lo'.
  induction pts as [|pt pts IH]; intros lo lo' Hlo; simpl; [done|].
  apply IH. destruct Hlo as (H1 & H2 & H3).
  repeat split; simpl; by apply Qmin_affine.
Qed.

Lemma fold_max_world hi hi' pts :
  Vec.eqv hi' (Box3.toWorld g hi) ->
  Vec.eqv (foldl Vec.max hi' (Box3.toWorld g <$> pts))
          (Box3.toWorld g (foldl Vec.max hi pts)).
Proof.
  revert hi hi'.
  induction pts as [|pt pts IH]; intros hi hi' Hhi; simpl; [done|].
  apply IH. destruct Hhi as (H1 & H2 & H3).
  repeat split; simpl; by apply Qmax_affine.
Qed.

(** The world box of the group is the box of the corners in the group's
    frame, scaled and moved with the group. *)
Lemma setFromObject_world scene lo hi :
  Box3.setFromPoints (sceneCorners scene) = Some (lo, hi) ->
  exists lo' hi',
    Box3.setFromObject g scene = Some (lo', hi') /\
    Vec.eqv lo' (Box3.toWorld g lo) /\ Vec.eqv hi' (Box3.toWorld g hi).
Proof.
  unfold Box3.setFromObject.
  destruct (sceneCorners scene) as [|pt pts]; [done|].
  rewrite fmap_cons, !setFromPoints_cons. intros [= <- <-].
  eexists _, _. split; [done|]. split.
  - apply fold_min_world. by repeat split.
  - apply fold_max_world. by repeat split.
Qed.
End WorldBox.

Lemma setFromObject_empty g scene :
  Box3.setFromPoints (sceneCorners scene) = None ->
  Box3.setFromObject g scene = None.
Proof.
  unfold Box3.setFromObject.
  destruct (sceneCorners scene) as [|pt pts]; [done|].
  by rewrite setFromPoints_cons.
Qed.

Lemma maxAxis_empty : Box3.maxAxis None = 0%Q.
Proof. reflexivity. Qed.

Lemma maxAxis_world g scene s :
  scale g = Vec.setScalar s -> (0 <= s)%Q ->
  (Box3.maxAxis (Box3.setFromObject g scene) ==
   Box3.maxAxis (Box3.setFromPoints (sceneCorners scene)) * s)%Q.
Proof.
  intros Hsc Hs.
  destruct (Box3.setFromPoints (sceneCorners scene)) as [[lo hi]|] eqn:Hloc.
  - destruct (setFromObject_world g) with (scene := scene) (lo := lo) (hi := hi)
      as (lo' & hi' & -> & Hlo & Hhi); try (rewrite Hsc; simpl; done); [done|].
    unfold Box3.toWorld, Vec.eqv in Hlo, Hhi. rewrite Hsc in Hlo, Hhi.
    simpl in Hlo, Hhi. destruct Hlo as (Lx & Ly & Lz), Hhi as (Hx & Hy & Hz).
    unfold Box3.maxAxis. simpl.
    rewrite <- !Qmax_scale by done.
    repeat apply Q.max_compat; lra.
  - rewrite (setFromObject_empty g scene Hloc), maxAxis_empty. lra.
Qed.

Lemma center_world g scene s lo hi :
  scale g = Vec.setScalar s -> (0 <= s)%Q ->
  Box3.setFromPoints (sceneCorners scene) = Some (lo, hi) ->
  Vec.eqv (Box3.getCenter (Box3.setFromObject g scene))
          (Box3.toWorld g (Box3.getCenter (Some (lo, hi)))).
Proof.
  intros Hsc Hs Hloc.
  destruct (setFromObject_world g) with (scene := scene) (lo := lo) (hi := hi)
    as (lo' & hi' & -> & Hlo & Hhi); try (rewrite Hsc; simpl; done); [done|].
  unfold Box3.toWorld, Vec.eqv in *. rewrite Hsc in *. simpl in *.
  destruct Hlo as (Lx & Ly & Lz), Hhi as (Hx & Hy & Hz).
  repeat split; lra.
Qed.

Lemma fold_min_le lo pts :
  (vx (foldl Vec.min lo pts) <= vx lo)%Q /\
  (vy (foldl Vec.min lo pts) <= vy lo)%Q /\
  (vz (foldl Vec.min lo pts) <= vz lo)%Q.
Proof.
  revert lo. induction pts as [|pt pts IH]; intros lo; simpl.
  - repeat split; lra.
  - destruct (IH (Vec.min lo pt)) as (Hx & Hy & Hz). simpl in *.
    pose proof (Q.le_min_l (vx lo) (vx pt)).
    pose proof (Q.le_min_l (vy lo) (vy pt)).
    pose proof (Q.le_min_l (vz lo) (vz pt)).
    repeat split; lra.
Qed.

Lemma fold_max_ge hi pts :
  (vx hi <= vx (foldl Vec.max hi pts))%Q /\
  (vy hi <= vy (foldl Vec.max hi pts))%Q /\
  (vz hi <= vz (foldl Vec.max hi pts))%Q.
Proof.
  revert hi. induction pts as [|pt pts IH]; intros hi; simpl.
  - repeat split; lra.
  - destruct (IH (Vec.max hi pt)) as (Hx & Hy & Hz). simpl in *.
    pose proof (Q.le_max_l (vx hi) (vx pt)).
    pose proof (Q.le_max_l (vy hi) (vy pt)).
    pose proof (Q.le_max_l (vz hi) (vz pt)).
    repeat split; lra.
Qed.

Lemma maxAxis_nonneg pts : (0 <= Box3.maxAxis (Box3.setFromPoints pts))%Q.
Proof.
  destruct pts as [|pt pts]; [by vm_compute|].
  rewrite setFromPoints_cons. unfold Box3.maxAxis. simpl.
  destruct (fold_min_le pt pts) as (Hx & _), (fold_max_ge pt pts) as (Hx' & _).
  set (a := (vx (foldl Vec.max pt pts) - vx (foldl Vec.min pt pts))%Q) in *.
  set (b := (vy (foldl Vec.max pt pts) - vy (foldl Vec.min pt pts))%Q).
  set (c := (vz (foldl Vec.max pt pts) - vz (foldl Vec.min pt pts))%Q).
  pose proof (Q.le_max_l (Qmax a b) c). pose proof (Q.le_max_l a b).
  unfold a in *. lra.
Qed.

(** C4, as amended.  For a group that still has its initial scale 1 (the
    first model a mounted [Model] frames), the step measures the largest
    extent [M] of the hierarchy's bounding box.  When [M] is positive the
    group is scaled uniformly by [2.4 / M] and the box measured afterwards
    has largest extent 2.4; when it is not (an empty hierarchy or a single
    point) the scale stays 1, nothing is divided, and the largest extent
    stays 0.  In both cases the centre of the box measured afterwards is
    the origin. *)
Theorem autoFrame_normalizes (scene : Object3D) (st : Model.State) (g : Group) :
  Model.groupRef st = Some g -> scale g = Vec.setScalar 1 ->
  let M := Box3.maxAxis (Box3.setFromObject g scene) in
  let st' := AutoFrame.autoFrame scene st in
  let B := AutoFrame.framedBox scene st in
  Vec.eqv (Box3.getCenter B) Vec.zero
  /\ ((0 < M)%Q ->
      scale <$> Model.groupRef st' = Some (Vec.setScalar (2.4 / M)) /\
      (Box3.maxAxis B == 2.4)%Q)
  /\ (~ (0 < M)%Q ->
      scale <$> Model.groupRef st' = Some (Vec.setScalar 1) /\
      (Box3.maxAxis B == 0)%Q).
Proof.
  intros Hg Hsc M st' B.
  unfold B, st', AutoFrame.framedBox, AutoFrame.autoFrame. rewrite Hg. simpl.
  fold M.
  set (E := Box3.maxAxis (Box3.setFromPoints (sceneCorners scene))).
  assert (HM : (M == E)%Q).
  { unfold M. rewrite (maxAxis_world g scene 1) by (done || lra). fold E. lra. }
  assert (HE : (0 <= E)%Q) by apply maxAxis_nonneg.
  set (s := if Qltb 0 M then (2.4 / M)%Q else 1%Q).
  assert (Hs : (0 <= s)%Q).
  { unfold s. destruct (Qltb 0 M) eqn:Hlt; [|lra].
    apply Qltb_lt in Hlt. apply Qle_shift_div_l; lra. }
  change (AutoFrame.normalize scene g) with
    {| position := Vec.sub (position g)
         (Box3.getCenter
            (Box3.setFromObject (mkGroup (position g) (rotation g) (Vec.setScalar s)) scene));
       rotation := rotation g; scale := Vec.setScalar s |}.
  set (c1 := Box3.getCenter
               (Box3.setFromObject (mkGroup (position g) (rotation g) (Vec.setScalar s))
                  scene)).
  set (g2 := mkGroup (Vec.sub (position g) c1) (rotation g) (Vec.setScalar s)).
  assert (Hext : (Box3.maxAxis (Box3.setFromObject g2 scene) == E * s)%Q)
    by by apply maxAxis_world.
  split; [|split].
  - destruct (Box3.setFromPoints (sceneCorners scene)) as [[lo hi]|] eqn:Hloc.
    + pose proof (center_world (mkGroup (position g) (rotation g) (Vec.setScalar s))
                    scene s lo hi eq_refl Hs Hloc) as H1.
      pose proof (center_world g2 scene s lo hi eq_refl Hs Hloc) as H2.
      fold c1 in H1. clearbody c1.
      unfold Box3.toWorld, Vec.eqv in H1, H2. simpl in H1, H2.
      destruct H1 as (X1 & Y1 & Z1), H2 as (X2 & Y2 & Z2).
      repeat split; simpl; lra.
    + rewrite (setFromObject_empty g2 scene Hloc). by repeat split.
  - intros Hpos. assert (Hlt : Qltb 0 M = true) by by apply Qltb_lt.
    split; [by unfold s; rewrite Hlt|].
    rewrite Hext. unfold s. rewrite Hlt, <- HM. field. lra.
  - intros Hnpos. assert (Hlt : Qltb 0 M = false) by (apply Qltb_ge; lra).
    split; [by unfold s; rewrite Hlt|].
    rewrite Hext. unfold s. rewrite Hlt. lra.
Qed.

Lemma autoFrame_normalizes_witness :
  let scene := Obj [Mesh 1 (Single 10) [vec3 0 0 0; vec3 2 4 1] []] in
  let B := AutoFrame.framedBox scene (Model.mounted ∅) in
  Vec.eqv (Box3.getCenter B) Vec.zero /\ (Box3.maxAxis B == 2.4)%Q.
Proof.
  intros scene B.
  destruct (autoFrame_normalizes scene (Model.mounted ∅) freshGroup eq_refl eq_refl)
    as (Hcenter & Hpos & _).
  split; [exact Hcenter|].
  apply Hpos. vm_compute. reflexivity.
Defined.

(** The specification promises a largest extent of 2.4 for every model.
    A model whose geometry is a single point has largest extent 0; the step
    keeps the scale 1 and the extent measured afterwards is still 0. *)
Lemma degenerate_model_keeps_zero_extent :
  let scene := Obj [Mesh 1 (Single 10) [vec3 1 2 3] []] in
  let B := AutoFrame.framedBox scene (Model.mounted ∅) in
  (Box3.maxAxis B == 0)%Q /\ ~ (Box3.maxAxis B == 2.4)%Q.
Proof.
  split.
  - vm_compute. reflexivity.
  - vm_compute. discriminate.
Qed.

(** The extent is measured under the scale the group already has, while
    [setScalar] replaces that scale: a second model framed in the same group
    does not come out at 2.4.  Two unit cubes loaded one after the other:
    the first is scaled to 2.4, the second stays at extent 1. *)
Lemma second_model_measured_under_previous_scale :
  let cube := Obj [Mesh 1 (Single 10) [vec3 0 0 0; vec3 1 1 1] []] in
  let st1 := AutoFrame.autoFrame cube (Model.mounted ∅) in
  (Box3.maxAxis (AutoFrame.framedBox cube (Model.mounted ∅)) == 2.4)%Q
  /\ (Box3.maxAxis (AutoFrame.framedBox cube st1) == 1)%Q.
Proof. split; vm_compute; reflexivity. Qed.

(** ** The patched colour stage *)


Lemma clamp_bounds x : (0 <= Shader.clamp x 0 1)%Q /\ (Shader.clamp x 0 1 <= 1)%Q.
Proof.
  unfold Shader.clamp. split.
  - apply Q.min_glb; [apply Q.le_max_r|lra].
  - apply Q.le_min_r.
Qed.



Lemma smoothstep_le_1 e0 e1 x : (Shader.smoothstep e0 e1 x <= 1)%Q.
Proof.
  unfold Shader.smoothstep.
  destruct (clamp_bounds ((x - e0) / (e1 - e0))) as [H0 H1].
  set (t := Shader.clamp ((x - e0) / (e1 - e0)) 0 1) in *.
  assert (H : (0 <= (1 - t) * (1 - t) * (1 + 2 * t))%Q).
  { apply Qmult_le_0_compat; [|lra]. apply Qmult_le_0_compat; lra. }
  assert (Heq : ((1 - t) * (1 - t) * (1 + 2 * t) == 1 - t * t * (3 - 2 * t))%Q) by ring.
  rewrite Heq in H. lra.
Qed.




(** * Further properties of the code *)

(** ** The application shell *)

Lemma findById_Some wanted options o :
  App.findById wanted options = Some o -> o ∈ options /\ App.id o = wanted.
Proof.
  unfold App.findById. intros Hf. apply List.find_some in Hf as [Hin Heq].
  split; [by apply list_elem_of_In|]. by apply String.eqb_eq.
Qed.

Lemma findById_None wanted options :
  App.findById wanted options = None <-> wanted ∉ App.id <$> options.
Proof.
  unfold App.findById. induction options as [|o options IH]; simpl.
  - split; [intros _; apply not_elem_of_nil|done].
  - destruct (String.eqb_spec (App.id o) wanted) as [Heq|Hne].
    + split; [done|]. intros Hn. destruct Hn. rewrite Heq. apply list_elem_of_here.
    + rewrite IH, not_elem_of_cons. split; [by intros ?; split | by intros [_ ?]].
Qed.

Lemma findById_app wanted l k :
  App.findById wanted (l ++ k) =
  match App.findById wanted l with
  | Some o => Some o
  | None => App.findById wanted k
  end.
Proof.
  unfold App.findById. induction l as [|o l IH]; simpl; [done|].
  by destruct (String.eqb (App.id o) wanted).
Qed.

Lemma selectionEffect_lists st :
  App.models (App.selectionEffect st) = App.models st
  /\ App.textures (App.selectionEffect st) = App.textures st
  /\ App.selectedTextureId (App.selectionEffect st) = App.selectedTextureId st
  /\ App.stickerUrl (App.selectionEffect st) = App.stickerUrl st
  /\ App.stickerTransform (App.selectionEffect st) = App.stickerTransform st
  /\ App.modelObjectUrls (App.selectionEffect st) = App.modelObjectUrls st
  /\ App.textureObjectUrls (App.selectionEffect st) = App.textureObjectUrls st
  /\ App.stickerObjectUrls (App.selectionEffect st) = App.stickerObjectUrls st
  /\ App.revoked (App.selectionEffect st) = App.revoked st.
Proof.
  unfold App.selectionEffect.
  destruct (App.findById (App.selectedModelId st) (App.models st));
    [by repeat split|].
  destruct (head (App.models st)); by repeat split.
Qed.

Lemma selectionEffect_found st m :
  App.findById (App.selectedModelId st) (App.models st) = Some m ->
  App.selectionEffect st = st.
Proof. intros Hf. unfold App.selectionEffect. by rewrite Hf. Qed.

Lemma handle_models_prefix st ev :
  App.models st `prefix_of` App.models (App.handle st ev)
  /\ App.textures st `prefix_of` App.textures (App.handle st ev).
Proof.
  destruct ev as [[f|] u n|[f|] u n|[f|] u| | | | | | | |]; simpl;
    split; try done; by apply prefix_app_r.
Qed.

Lemma step_models_prefix st ev :
  App.models st `prefix_of` App.models (App.step st ev)
  /\ App.textures st `prefix_of` App.textures (App.step st ev).
Proof.
  unfold App.step.
  destruct (selectionEffect_lists (App.handle st ev)) as (-> & -> & _).
  apply handle_models_prefix.
Qed.

Lemma run_models_prefix st evs :
  App.models st `prefix_of` App.models (App.run st evs)
  /\ App.textures st `prefix_of` App.textures (App.run st evs).
Proof.
  unfold App.run. revert st. induction evs as [|ev evs IH]; intros st; simpl; [done|].
  destruct (step_models_prefix st ev) as [Hm Ht].
  destruct (IH (App.step st ev)) as [Hm' Ht'].
  split; by etrans.
Qed.

Lemma selectionEffect_valid st first :
  head (App.models st) = Some first ->
  exists m, App.findById (App.selectedModelId (App.selectionEffect st))
              (App.models (App.selectionEffect st)) = Some m.
Proof.
  intros Hhead. unfold App.selectionEffect.
  destruct (App.findById (App.selectedModelId st) (App.models st)) as [m|] eqn:Hf.
  - exists m. done.
  - rewrite Hhead. simpl. exists first.
    destruct (App.models st) as [|o rest]; [done|].
    injection Hhead as ->. unfold App.findById. simpl.
    by rewrite String.eqb_refl.
Qed.

(** The model and texture lists only ever grow at their end: whatever the
    user does, the lists of any earlier state are prefixes of the later
    ones.  From the initial state the built-in models therefore stay in
    front, the list is never empty, and [App] always renders the canvas
    rather than the "Add a model" notice. *)
Theorem app_lists_append_only (st : App.State) (evs : list App.Event) :
  App.models st `prefix_of` App.models (App.run st evs)
  /\ App.textures st `prefix_of` App.textures (App.run st evs)
  /\ App.defaultModels `prefix_of` App.models (App.run App.init evs)
  /\ is_Some (App.canvasProps (App.run App.init evs)).
Proof.
  destruct (run_models_prefix st evs) as [Hm Ht].
  destruct (run_models_prefix App.init evs) as [[k Hk] _].
  split; [done|]. split; [done|]. split; [by exists k|].
  unfold App.canvasProps, App.selectedModel.
  destruct (App.findById _ _) as [m|]; [by eexists|].
  rewrite Hk. eexists. reflexivity.
Qed.

Lemma run_init_found evs :
  exists m, App.findById (App.selectedModelId (App.run App.init evs))
              (App.models (App.run App.init evs)) = Some m.
Proof.
  destruct evs as [|ev evs _] using rev_ind.
  - by eexists.
  - unfold App.run. rewrite foldl_snoc. fold (App.run App.init evs).
    unfold App.step.
    destruct (run_models_prefix App.init evs) as [[k Hk] _].
    destruct (handle_models_prefix (App.run App.init evs) ev) as [[k' Hk'] _].
    eapply selectionEffect_valid. rewrite Hk', Hk. reflexivity.
Qed.

(** After every event the selected model id names a listed model, and
    that model is the one handed to the canvas: an id that names nothing
    (which the select can only produce by tampering) is replaced by the id
    of the first model. *)
Theorem app_selection_valid (evs : list App.Event) :
  let st := App.run App.init evs in
  exists m, App.selectedModel st = Some m /\ m ∈ App.models st
            /\ App.id m = App.selectedModelId st
            /\ App.modelUrl <$> App.canvasProps st = Some (App.url m).
Proof.
  intros st. destruct (run_init_found evs) as [m Hm]. fold st in Hm. exists m.
  destruct (findById_Some _ _ _ Hm) as [Hin Hid].
  unfold App.canvasProps, App.selectedModel. rewrite Hm. done.
Qed.

(** A change event of a file input that holds no file changes nothing,
    whichever of the three inputs it is. *)
Theorem empty_file_input_is_ignored (evs : list App.Event) (u : string) (now : N) :
  let st := App.run App.init evs in
  App.step st (App.ModelFile None u now) = st
  /\ App.step st (App.TextureFile None u now) = st
  /\ App.step st (App.StickerFile None u) = st.
Proof.
  intros st. destruct (run_init_found evs) as [m Hm]. fold st in Hm.
  unfold App.step. simpl. by rewrite (selectionEffect_found st m Hm).
Qed.

(** An uploaded model (texture) becomes the selected one, served from its
    object url, when no listed model (texture) already has its id
    [name-timestamp]; when one has, [find] answers that earlier entry and
    the upload, though listed, is not the one shown. *)
Theorem upload_selects_uploaded
    (st : App.State) (file : App.File) (u : string) (now : N) :
  let new := App.uploadedOption file u now in
  let stm := App.step st (App.ModelFile (Some file) u now) in
  let stt := App.step st (App.TextureFile (Some file) u now) in
  (App.id new ∉ App.id <$> App.models st ->
     App.selectedModel stm = Some new
     /\ App.modelUrl <$> App.canvasProps stm = Some u)
  /\ (App.id new ∉ App.id <$> App.textures st ->
     App.selectedTexture stt = Some new
     /\ App.url <$> App.selectedTexture stt = Some u)
  /\ (forall old, App.findById (App.id new) (App.models st) = Some old ->
     App.selectedModel stm = Some old /\ new ∈ App.models stm)
  /\ (forall old, App.findById (App.id new) (App.textures st) = Some old ->
     App.selectedTexture stt = Some old /\ new ∈ App.textures stt).
Proof.
  intros new stm stt.
  assert (Hself : App.findById (App.id new) [new] = Some new).
  { unfold App.findById. simpl. by rewrite String.eqb_refl. }
  assert (Hm : forall r, App.findById (App.id new) (App.models st ++ [new]) = Some r ->
             App.selectedModel stm = Some r
             /\ App.modelUrl <$> App.canvasProps stm = Some (App.url r)
             /\ new ∈ App.models stm).
  { intros r Hr. unfold stm, App.step. cbn [App.handle App.handleChange].
    rewrite (selectionEffect_found _ r) by exact Hr.
    unfold App.canvasProps, App.selectedModel.
    cbn [App.handleModelUpload App.models App.selectedModelId]. fold new.
    rewrite Hr. split; [done|]. split; [done|].
    apply elem_of_app. right. apply list_elem_of_here. }
  assert (Ht : forall r, App.findById (App.id new) (App.textures st ++ [new]) = Some r ->
             App.selectedTexture stt = Some r /\ new ∈ App.textures stt).
  { intros r Hr. unfold stt, App.step. cbn [App.handle App.handleChange].
    unfold App.selectedTexture.
    destruct (selectionEffect_lists (App.handleTextureUpload file u now st))
      as (_ & -> & -> & _).
    cbn [App.handleTextureUpload App.textures App.selectedTextureId]. fold new.
    split; [done|]. apply elem_of_app. right. apply list_elem_of_here. }
  split; [|split; [|split]].
  - intros Hfresh. apply findById_None in Hfresh.
    destruct (Hm new) as (H1 & H2 & _); [by rewrite findById_app, Hfresh|].
    done.
  - intros Hfresh. apply findById_None in Hfresh.
    destruct (Ht new) as (H1 & _); [by rewrite findById_app, Hfresh|].
    by rewrite H1.
  - intros old Hold.
    destruct (Hm old) as (H1 & _ & H3); [by rewrite findById_app, Hold|]. done.
  - intros old Hold.
    destruct (Ht old) as (H1 & H3); [by rewrite findById_app, Hold|]. done.
Qed.

Lemma upload_selects_uploaded_witness :
  let file := App.mkFile "chair.glb" in
  let st1 := App.step App.init (App.ModelFile (Some file) "blob:1" 1700000000000) in
  let st2 := App.step st1 (App.ModelFile (Some file) "blob:2" 1700000000000) in
  App.modelUrl <$> App.canvasProps st1 = Some "blob:1"
  /\ App.url <$> App.selectedModel st2 = Some "blob:1"
  /\ App.url <$> App.selectedTexture
        (App.step App.init (App.TextureFile (Some file) "blob:3" 5)) = Some "blob:3".
Proof.
  intros file st1 st2.
  destruct (upload_selects_uploaded App.init file "blob:1" 1700000000000)
    as (Hfresh & _).
  destruct (upload_selects_uploaded st1 file "blob:2" 1700000000000)
    as (_ & _ & Hshadow & _).
  destruct (upload_selects_uploaded App.init file "blob:3" 5)
    as (_ & Htex & _).
  split; [|split].
  - apply Hfresh. vm_compute. intros Hin.
    repeat (apply elem_of_cons in Hin as [Hin|Hin]; [discriminate|]).
    by apply not_elem_of_nil in Hin.
  - destruct (Hshadow (App.uploadedOption file "blob:1" 1700000000000)) as [Hsel _];
      [by vm_compute|].
    exact (f_equal (fmap App.url) Hsel).
  - apply Htex. vm_compute. intros Hin.
    repeat (apply elem_of_cons in Hin as [Hin|Hin]; [discriminate|]).
    by apply not_elem_of_nil in Hin.
Defined.

Lemma handle_urls st ev :
  App.isTeardown ev = false ->
  App.revoked (App.handle st ev) = App.revoked st
  /\ tracked (App.handle st ev) ≡ₚ tracked st ++ App.created ev
  /\ (urls_tracked st -> urls_tracked (App.handle st ev)).
Proof.
  intros Hev. unfold tracked, urls_tracked.
  destruct ev as [[f|] u n|[f|] u n|[f|] u| | | | | | | |]; try discriminate;
    cbn [App.handle App.handleChange App.created App.handleModelUpload
         App.handleTextureUpload App.handleStickerUpload
         App.set_selectedModelId App.set_selectedTextureId App.set_stickerUrl
         App.set_stickerTransform App.revoked App.models App.textures
         App.stickerUrl App.modelObjectUrls App.textureObjectUrls
         App.stickerObjectUrls];
    (split; [done|]); (split; [|]);
    try (rewrite app_nil_r; done); try done.
  - rewrite <- !(assoc_L app). apply Permutation_app_head.
    rewrite (comm app [u]). by rewrite <- !(assoc_L app).
  - intros (Hm & Ht & Hs). split; [|done].
    intros o Ho Hl. apply elem_of_app in Ho as [Ho|Ho]; apply elem_of_app.
    + left. by apply Hm.
    + right. apply list_elem_of_singleton in Ho as ->. apply list_elem_of_here.
  - rewrite <- !(assoc_L app). do 2 apply Permutation_app_head.
    by rewrite (comm app [u]).
  - intros (Hm & Ht & Hs). split; [done|]. split; [|done].
    intros o Ho Hl. apply elem_of_app in Ho as [Ho|Ho]; apply elem_of_app.
    + left. by apply Ht.
    + right. apply list_elem_of_singleton in Ho as ->. apply list_elem_of_here.
  - by rewrite <- !(assoc_L app).
  - intros (Hm & Ht & Hs). split; [done|]. split; [done|].
    intros u' [= <-]. apply elem_of_app. right. apply list_elem_of_here.
  - intros (Hm & Ht & Hs). by repeat split.
Qed.

Lemma selectionEffect_urls st :
  App.revoked (App.selectionEffect st) = App.revoked st
  /\ tracked (App.selectionEffect st) = tracked st
  /\ (urls_tracked st -> urls_tracked (App.selectionEffect st)).
Proof.
  unfold tracked, urls_tracked.
  destruct (selectionEffect_lists st)
    as (-> & -> & _ & -> & _ & -> & -> & -> & ->). done.
Qed.

Lemma run_urls st evs :
  Forall (fun ev => App.isTeardown ev = false) evs ->
  App.revoked (App.run st evs) = App.revoked st
  /\ tracked (App.run st evs) ≡ₚ tracked st ++ flat_map App.created evs
  /\ (urls_tracked st -> urls_tracked (App.run st evs)).
Proof.
  intros Hevs. revert st. unfold App.run.
  induction Hevs as [|ev evs Hev Hevs IH]; intros st; simpl.
  - by rewrite app_nil_r.
  - destruct (handle_urls st ev Hev) as (Hr & Hp & Hu).
    destruct (selectionEffect_urls (App.handle st ev)) as (Hr' & Hp' & Hu').
    destruct (IH (App.step st ev)) as (Hr'' & Hp'' & Hu'').
    unfold App.step in *. split; [congruence|]. split.
    + rewrite Hp'', Hp', Hp. by rewrite <- (assoc_L app).
    + auto.
Qed.

(** Until [App] unmounts, no object url is revoked and every object url
    still in use -- the url of each uploaded model and texture in the lists
    and the current sticker url -- is in the bucket of its kind, so the
    canvas is never handed a revoked url.  The buckets hold exactly the urls
    the uploads created, and unmounting revokes each of them, once per
    creation. *)
Theorem object_urls_revoked_at_teardown (evs : list App.Event) :
  Forall (fun ev => App.isTeardown ev = false) evs ->
  let st := App.run App.init evs in
  App.revoked st = []
  /\ urls_tracked st
  /\ tracked st ≡ₚ flat_map App.created evs
  /\ App.revoked (App.step st App.Teardown) = tracked st.
Proof.
  intros Hevs st. destruct (run_urls App.init evs Hevs) as (Hr & Hp & Hu).
  fold st in Hr, Hp, Hu. split; [done|]. split; [|split; [done|]].
  - apply Hu. unfold urls_tracked. simpl. split; [|split; [|done]].
    + intros o Ho Hl. exfalso.
      repeat (apply elem_of_cons in Ho as [->|Ho]; [discriminate|]).
      by apply not_elem_of_nil in Ho.
    + intros o Ho Hl. exfalso.
      repeat (apply elem_of_cons in Ho as [->|Ho]; [discriminate|]).
      by apply not_elem_of_nil in Ho.
  - unfold App.step.
    destruct (selectionEffect_lists (App.handle st App.Teardown))
      as (_ & _ & _ & _ & _ & _ & _ & _ & ->).
    simpl. by rewrite Hr.
Qed.

Lemma object_urls_revoked_at_teardown_witness :
  let evs := [App.ModelFile (Some (App.mkFile "chair.glb")) "blob:1" 7;
              App.StickerFile (Some (App.mkFile "star.png")) "blob:2";
              App.ClearSticker;
              App.TextureFile (Some (App.mkFile "wood.jpg")) "blob:3" 9] in
  App.revoked (App.run App.init evs) = []
  /\ App.revoked (App.step (App.run App.init evs) App.Teardown)
     = ["blob:1"; "blob:3"; "blob:2"].
Proof.
  intros evs.
  destruct (object_urls_revoked_at_teardown evs) as (Hnone & _ & _ & Hall).
  - repeat constructor.
  - split; [exact Hnone|].
    rewrite Hall. vm_compute. reflexivity.
Defined.

(** The sticker controls never change which model and texture are shown.
    Reset restores the default transform whatever the sliders did and keeps
    the sticker image; clearing the sticker keeps the transform. *)
Theorem sticker_controls_leave_selection (evs : list App.Event) (ev : App.Event) :
  isStickerControl ev ->
  let st := App.run App.init evs in
  let st' := App.step st ev in
  App.modelUrl <$> App.canvasProps st' = App.modelUrl <$> App.canvasProps st
  /\ App.textureUrl <$> App.canvasProps st' = App.textureUrl <$> App.canvasProps st
  /\ App.models st' = App.models st /\ App.textures st' = App.textures st
  /\ (ev = App.ResetTransform ->
      App.stickerTransform st' = App.defaultStickerTransform
      /\ App.stickerUrl st' = App.stickerUrl st)
  /\ (ev = App.ClearSticker ->
      App.stickerUrl st' = None
      /\ App.stickerTransform st' = App.stickerTransform st).
Proof.
  intros Hev st st'. destruct (run_init_found evs) as [m Hm]. fold st in Hm.
  assert (Hsel : App.findById (App.selectedModelId (App.handle st ev))
                   (App.models (App.handle st ev)) = Some m
                 /\ App.textures (App.handle st ev) = App.textures st
                 /\ App.models (App.handle st ev) = App.models st
                 /\ App.selectedTextureId (App.handle st ev) = App.selectedTextureId st).
  { destruct ev as [[f|] u n|[f|] u n|[f|] u| | | | | | | |]; try done. }
  destruct Hsel as (Hf & Ht & Hms & Hti).
  unfold st', App.step. rewrite (selectionEffect_found _ m Hf).
  unfold App.canvasProps, App.selectedModel, App.selectedTexture.
  rewrite Hf, Hm, Ht, Hti, Hms. cbn [fmap option_fmap option_map App.modelUrl App.textureUrl].
  repeat split; try done; by subst ev.
Qed.

Lemma sticker_controls_leave_selection_witness :
  let st := App.run App.init
              [App.StickerFile (Some (App.mkFile "star.png")) "blob:1";
               App.PositionSlider App.AxisX 0.5] in
  App.stickerTransform (App.step st App.ResetTransform) = App.defaultStickerTransform
  /\ App.stickerUrl (App.step st App.ResetTransform) = Some "blob:1"
  /\ App.stickerUrl (App.step st App.ClearSticker) = None.
Proof.
  intros st.
  destruct (sticker_controls_leave_selection
              [App.StickerFile (Some (App.mkFile "star.png")) "blob:1";
               App.PositionSlider App.AxisX 0.5] App.ResetTransform I)
    as (_ & _ & _ & _ & Hreset & _).
  destruct (sticker_controls_leave_selection
              [App.StickerFile (Some (App.mkFile "star.png")) "blob:1";
               App.PositionSlider App.AxisX 0.5] App.ClearSticker I)
    as (_ & _ & _ & _ & _ & Hclear).
  destruct (Hreset eq_refl) as [H1 H2]. destruct (Hclear eq_refl) as [H3 _].
  split; [exact H1|]. split; [|exact H3].
  etrans; [exact H2|]. by vm_compute.
Defined.

(** ** More on the load effects *)

Lemma effectBody_idle resetFirst url s : idle_inv (Loader.effectBody resetFirst url s).
Proof.
  unfold idle_inv, Loader.effectBody.
  destruct url as [u|]; [|done].
  destruct (truthy_url (Some u)) eqn:Ht; [|done].
  intros Hd. cbn [Loader.dep] in Hd. congruence.
Qed.

Lemma step_idle resetFirst s ev :
  slot_inv s -> idle_inv s -> idle_inv (Loader.step resetFirst s ev).
Proof.
  intros Hinv Hidle. destruct ev as [url|r tex|r|]; simpl.
  - case_decide; [done|]. apply effectBody_idle.
  - unfold Loader.onLoad. destruct (Loader.cancelled r s) as [[]|] eqn:Hc; try done.
    intros Hd. destruct (Hidle Hd) as [_ Hcl].
    destruct (Hinv r Hc) as (Hcl' & _). simpl in *. congruence.
  - unfold Loader.onError. destruct (Loader.cancelled r s) as [[]|] eqn:Hc; try done.
    intros Hd. destruct (Hidle Hd) as [_ Hcl]. done.
  - intros Hd.
    assert (Hdep : Loader.dep (Loader.runCleanup s) = Loader.dep s)
      by (unfold Loader.runCleanup; by destruct (Loader.cleanup s)).
    rewrite Hdep in Hd. destruct (Hidle Hd) as [Hv Hcl].
    unfold Loader.runCleanup. by rewrite Hcl.
Qed.

Lemma run_idle resetFirst s evs :
  slot_inv s -> idle_inv s -> idle_inv (Loader.run resetFirst s evs).
Proof.
  unfold Loader.run. revert s.
  induction evs as [|ev evs IH]; intros s Hinv Hidle; simpl; [done|].
  apply IH; [by apply step_inv|by apply step_idle].
Qed.

Lemma step_keeps_dep resetFirst s ev :
  keepsUrl ev -> Loader.dep (Loader.step resetFirst s ev) = Loader.dep s.
Proof.
  destruct ev as [url|r tex|r|]; simpl; try done; intros _.
  - unfold Loader.onLoad. by destruct (Loader.cancelled r s) as [[]|].
  - unfold Loader.onError. by destruct (Loader.cancelled r s) as [[]|].
  - unfold Loader.runCleanup. by destruct (Loader.cleanup s).
Qed.

Lemma run_keeps_dep resetFirst s evs :
  Forall keepsUrl evs -> Loader.dep (Loader.run resetFirst s evs) = Loader.dep s.
Proof.
  intros Hevs. revert s. unfold Loader.run.
  induction Hevs as [|ev evs Hev Hevs IH]; intros s; simpl; [done|].
  by rewrite IH, step_keeps_dep.
Qed.

Lemma no_url_no_texture_aux
    (resetFirst : bool) (url0 url : option string)
    (before after : list Loader.Event) :
  truthy_url url = false -> Forall keepsUrl after ->
  let s := Loader.run resetFirst (Loader.mount resetFirst url0) before in
  let s' := Loader.run resetFirst (Loader.step resetFirst s (Loader.UrlProp url)) after in
  Loader.value s' = None
  /\ length (Loader.requests s') = length (Loader.requests s).
Proof.
  intros Hurl Hafter s s'.
  assert (Hs : slot_inv s /\ idle_inv s).
  { split; [apply run_inv, mount_inv|].
    apply run_idle; [apply mount_inv|apply effectBody_idle]. }
  destruct Hs as [Hinv Hidle].
  set (s1 := Loader.step resetFirst s (Loader.UrlProp url)).
  assert (Hd1 : Loader.dep s1 = url /\ length (Loader.requests s1) = length (Loader.requests s)).
  { unfold s1. simpl. case_decide as Hd; [by subst url|].
    unfold Loader.effectBody. destruct url as [u|]; [|simpl; split; [done|apply runCleanup_length]].
    rewrite Hurl. simpl. split; [done|apply runCleanup_length]. }
  destruct Hd1 as [Hd1 Hl1].
  assert (Hidle' : idle_inv s').
  { apply run_idle; [by apply step_inv|by apply step_idle]. }
  split.
  - apply Hidle'. unfold s'. rewrite run_keeps_dep by done. fold s1. by rewrite Hd1.
  - rewrite <- Hl1. unfold s'. fold s1. clear -Hafter.
    generalize s1. unfold Loader.run.
    induction Hafter as [|ev evs Hev Hevs IH]; intros s0; simpl; [done|].
    rewrite IH. destruct ev as [?|r tex|r|]; simpl; try done.
    + unfold Loader.onLoad. by destruct (Loader.cancelled r s0) as [[]|].
    + unfold Loader.onError. by destruct (Loader.cancelled r s0) as [[]|].
    + apply runCleanup_length.
Qed.

(** While the url prop is null or empty the slot holds no texture: once
    "no url" is selected, no completion of an earlier load, however late,
    brings a texture (or a sticker) back, and no load is issued. *)
Theorem no_url_no_texture
    (resetFirst : bool) (url0 url : option string)
    (before after : list Loader.Event) :
  truthy_url url = false -> Forall keepsUrl after ->
  let s := Loader.run resetFirst (Loader.mount resetFirst url0) before in
  let s' := Loader.run resetFirst (Loader.step resetFirst s (Loader.UrlProp url)) after in
  Loader.value s' = None
  /\ length (Loader.requests s') = length (Loader.requests s).
Proof. apply no_url_no_texture_aux. Qed.

Lemma no_url_no_texture_witness :
  let s' := Loader.run false
              (Loader.step false
                 (Loader.run false (Loader.mount false (Some "star.png")) [])
                 (Loader.UrlProp None))
              [Loader.Loaded 0 7] in
  Loader.value s' = None /\ length (Loader.requests s') = 1.
Proof.
  apply (no_url_no_texture false (Some "star.png") None [] [Loader.Loaded 0 7]).
  - reflexivity.
  - repeat constructor.
Defined.

Lemma stale_is_noop resetFirst s r ev :
  slot_inv s -> Loader.cleanup s = Some r -> staleFor r ev ->
  Loader.step resetFirst s ev = s.
Proof.
  intros Hinv Hcl Hev. destruct ev as [url|q tex|q|]; simpl in *; try done.
  - unfold Loader.onLoad. destruct (Loader.cancelled q s) as [[]|] eqn:Hc; try done.
    destruct (Hinv q Hc) as (Hcl' & _). congruence.
  - unfold Loader.onError. destruct (Loader.cancelled q s) as [[]|] eqn:Hc; try done.
    destruct (Hinv q Hc) as (Hcl' & _). congruence.
Qed.

Lemma stale_run_is_noop resetFirst s r evs :
  slot_inv s -> Loader.cleanup s = Some r -> Forall (staleFor r) evs ->
  Loader.run resetFirst s evs = s.
Proof.
  intros Hinv Hcl Hevs. unfold Loader.run.
  induction Hevs as [|ev evs Hev Hevs IH]; simpl; [done|].
  by rewrite (stale_is_noop resetFirst s r ev).
Qed.

(** What a change to a new, non-empty url leaves behind. *)
Lemma issue_load resetFirst s url :
  truthy_url url = true -> url <> Loader.dep s ->
  let s1 := Loader.step resetFirst s (Loader.UrlProp url) in
  let r := length (Loader.requests s) in
  Loader.cleanup s1 = Some r /\ Loader.cancelled r s1 = Some false
  /\ Loader.value s1 = (if resetFirst then None else Loader.value s).
Proof.
  intros Hurl Hne s1 r. unfold s1. simpl. rewrite decide_False by done.
  unfold Loader.effectBody. destruct url as [u|]; [|done]. rewrite Hurl.
  unfold Loader.cancelled. simpl. rewrite runCleanup_length. fold r.
  split; [done|]. split.
  - rewrite lookup_app_r by (rewrite runCleanup_length; done).
    rewrite runCleanup_length, Nat.sub_diag. done.
  - destruct resetFirst; [done|].
    unfold Loader.runCleanup. by destruct (Loader.cleanup s).
Qed.

(** The result of the load issued last is committed when it arrives,
    however many completions of superseded loads arrive before it: its
    success sets the texture, its failure sets null. *)
Theorem latest_load_commits
    (resetFirst : bool) (url0 url : option string)
    (before stale : list Loader.Event) (tex : TextureId) :
  let s := Loader.run resetFirst (Loader.mount resetFirst url0) before in
  let r := length (Loader.requests s) in
  let s2 := Loader.run resetFirst (Loader.step resetFirst s (Loader.UrlProp url)) stale in
  truthy_url url = true -> url <> Loader.dep s -> Forall (staleFor r) stale ->
  Loader.commits r s2
  /\ Loader.value (Loader.step resetFirst s2 (Loader.Loaded r tex)) = Some tex
  /\ Loader.value (Loader.step resetFirst s2 (Loader.Failed r)) = None.
Proof.
  intros s r s2 Hurl Hne Hstale.
  destruct (issue_load resetFirst s url Hurl Hne) as (Hcl & Hc & _). fold r in Hcl, Hc.
  assert (Hinv1 : slot_inv (Loader.step resetFirst s (Loader.UrlProp url)))
    by apply step_inv, run_inv, mount_inv.
  unfold s2. clear s2. rewrite (stale_run_is_noop _ _ r) by done.
  set (s1 := Loader.step resetFirst s (Loader.UrlProp url)) in *. clearbody s1.
  unfold Loader.commits. split; [done|].
  simpl. unfold Loader.onLoad, Loader.onError. by rewrite Hc.
Qed.

Lemma latest_load_commits_witness :
  let s2 := Loader.run true
              (Loader.step true (Loader.mount true (Some "metal.jpg"))
                 (Loader.UrlProp (Some "uv_grid.jpg")))
              [Loader.Loaded 0 5; Loader.Failed 0] in
  Loader.value (Loader.step true s2 (Loader.Loaded 1 7)) = Some 7.
Proof.
  apply (latest_load_commits true (Some "metal.jpg") (Some "uv_grid.jpg") []
           [Loader.Loaded 0 5; Loader.Failed 0] 7).
  - reflexivity.
  - discriminate.
  - repeat constructor; simpl; lia.
Defined.

(** While a newly selected url is loading, the texture effect shows no
    override (it clears the texture before it issues the load), whereas the
    sticker effect keeps showing the previous sticker; completions of
    superseded loads do not change either. *)
Theorem pending_load_display
    (resetFirst : bool) (url0 url : option string)
    (before stale : list Loader.Event) :
  let s := Loader.run resetFirst (Loader.mount resetFirst url0) before in
  let r := length (Loader.requests s) in
  let s2 := Loader.run resetFirst (Loader.step resetFirst s (Loader.UrlProp url)) stale in
  truthy_url url = true -> url <> Loader.dep s -> Forall (staleFor r) stale ->
  Loader.value s2 = (if resetFirst then None else Loader.value s)
  /\ Loader.dep s2 = url.
Proof.
  intros s r s2 Hurl Hne Hstale.
  destruct (issue_load resetFirst s url Hurl Hne) as (Hcl & _ & Hv). fold r in Hcl.
  assert (Hinv1 : slot_inv (Loader.step resetFirst s (Loader.UrlProp url)))
    by apply step_inv, run_inv, mount_inv.
  unfold s2. rewrite (stale_run_is_noop _ _ r) by done.
  split; [done|]. simpl. rewrite decide_False by done.
  unfold Loader.effectBody. destruct url as [u|]; [|done]. by rewrite Hurl.
Qed.

Lemma pending_load_display_witness :
  let s := Loader.run false (Loader.mount false (Some "star.png")) [Loader.Loaded 0 4] in
  let s2 := Loader.run false (Loader.step false s (Loader.UrlProp (Some "moon.png")))
              [Loader.Failed 0] in
  Loader.value s2 = Some 4 /\ Loader.dep s2 = Some "moon.png".
Proof.
  apply (pending_load_display false (Some "star.png") (Some "moon.png")
           [Loader.Loaded 0 4] [Loader.Failed 0]).
  - reflexivity.
  - discriminate.
  - repeat constructor; simpl; lia.
Defined.

(** Clearing the sticker in [App] removes the decal: the sticker effect,
    fed the cleared url, holds no texture whatever it was loading and
    whichever late completions follow, so [Model] renders no decal on any
    target, while the transform the sliders set is kept. *)
Theorem clear_sticker_removes_decal
    (url0 : option string) (before after : list Loader.Event)
    (app : App.State) (model : Model.State) :
  Forall keepsUrl after ->
  let app' := App.step app App.ClearSticker in
  let slot := Loader.run false (Loader.mount false url0) before in
  let slot' := Loader.run false
                 (Loader.step false slot (Loader.UrlProp (App.stickerUrl app'))) after in
  App.stickerUrl app' = None
  /\ App.stickerTransform app' = App.stickerTransform app
  /\ Decal.render (Loader.value slot') (Some (App.stickerTransform app')) model = None.
Proof.
  intros Hafter app' slot slot'.
  assert (Hu : App.stickerUrl app' = None /\
               App.stickerTransform app' = App.stickerTransform app).
  { unfold app', App.step.
    destruct (selectionEffect_lists (App.handle app App.ClearSticker))
      as (_ & _ & _ & -> & -> & _). done. }
  destruct Hu as [Hu Ht]. split; [done|]. split; [done|].
  assert (Hv : Loader.value slot' = None).
  { unfold slot'. rewrite Hu.
    by apply (no_url_no_texture_aux false url0 None before after). }
  by rewrite Hv.
Qed.

(** ** More on the materials of a mounted [Model] *)

Section Evolution.
Variables fallbackTexture noiseTexture : TextureId.

Local Abbreviation ev := (evolves fallbackTexture noiseTexture).
Local Abbreviation hev := (heap_evolves fallbackTexture noiseTexture).

Lemma evolves_refl k mat : ev k mat mat.
Proof. unfold evolves. repeat split; auto. Qed.

Lemma evolves_trans k m1 m2 m3 : ev k m1 m2 -> ev k m2 m3 -> ev k m1 m3.
Proof.
  intros (Hm & Hme & Hr & Ho & Hp) (Hm' & Hme' & Hr' & Ho' & Hp').
  unfold evolves. split; [congruence|]. split; [auto|]. split; [auto|].
  split; [auto|].
  destruct Hp as [(P1 & P2 & P3)|(P1 & P2 & P3 & P4)],
           Hp' as [(Q1 & Q2 & Q3)|(Q1 & Q2 & Q3 & Q4)].
  - left. repeat split; congruence.
  - right. repeat split; congruence.
  - right. repeat split; congruence.
  - congruence.
Qed.

Lemma heap_evolves_refl h : hev h h.
Proof.
  intros k. destruct (h !! k); constructor. apply evolves_refl.
Qed.

Lemma heap_evolves_trans h1 h2 h3 : hev h1 h2 -> hev h2 h3 -> hev h1 h3.
Proof.
  intros H12 H23 k. specialize (H12 k). specialize (H23 k).
  destruct H12 as [m1 m2 E12|]; inversion H23; subst; constructor.
  by eapply evolves_trans.
Qed.

Lemma patchOnce_evolves k mat :
  ev k mat (patchOnce fallbackTexture noiseTexture k mat).
Proof.
  unfold evolves, patchOnce, Model.installHook, Model.fillDefaults.
  destruct (patched mat) eqn:Hp; simpl.
  - split; [done|]. split; [by intros v ->|]. split; [by intros v ->|].
    split; [by intros v ->|]. left. by repeat split.
  - split; [done|]. split; [by intros v ->|]. split; [by intros v ->|].
    split; [by intros v ->|]. right. by repeat split.
Qed.

Lemma retarget_evolves texture om k mat :
  ev k mat (Model.retarget fallbackTexture texture om k mat).
Proof. unfold evolves, Model.retarget. simpl. repeat split; auto. Qed.

Lemma advance_evolves d k mat : ev k mat (Model.advance d mat).
Proof.
  unfold Model.advance. destruct (blendUniforms mat); [|apply evolves_refl].
  destruct (Qltb _ _); [|apply evolves_refl].
  unfold evolves. simpl. repeat split; auto.
Qed.

Lemma alter_evolves (f : Material -> Material) m h :
  (forall mat, ev m mat (f mat)) -> hev h (alter f m h).
Proof.
  intros Hf k. destruct (decide (k = m)) as [->|Hne].
  - rewrite lookup_alter_eq. destruct (h !! m); constructor. apply Hf.
  - rewrite lookup_alter_ne by done. apply heap_evolves_refl.
Qed.

Lemma fold_alter_evolves (f : MaterialId -> Material -> Material) l h :
  (forall m mat, ev m mat (f m mat)) ->
  hev h (foldl (fun h m => alter (f m) m h) h l).
Proof.
  intros Hf. revert h. induction l as [|m l IH]; intros h; simpl.
  - apply heap_evolves_refl.
  - eapply heap_evolves_trans; [|apply IH]. by apply alter_evolves.
Qed.

Lemma patchEffect_evolves scene st :
  hev (Model.heap st)
      (Model.heap (Model.patchEffect fallbackTexture noiseTexture scene st)).
Proof.
  intros k. rewrite patchEffect_heap. case_decide; [|apply heap_evolves_refl].
  destruct (Model.heap st !! k); constructor. apply patchOnce_evolves.
Qed.

Lemma compile_evolves m st :
  hev (Model.heap st) (Model.heap (Model.compile m st)).
Proof.
  unfold Model.compile.
  destruct (Model.heap st !! m) as [mat|]; [|apply heap_evolves_refl].
  destruct (onBeforeCompile mat) as [hk|]; [|apply heap_evolves_refl].
  simpl. unfold Model.runHook.
  destruct (Model.heap st !! hook_material hk) as [mat'|] eqn:Hm;
    [|apply heap_evolves_refl].
  intros k. destruct (decide (k = hook_material hk)) as [->|Hne].
  - rewrite lookup_insert_eq, Hm. constructor.
    unfold evolves. simpl. repeat split; auto.
  - rewrite lookup_insert_ne by done. apply heap_evolves_refl.
Qed.

Lemma step_evolves st e :
  hev (Model.heap st)
      (Model.heap (Session.step fallbackTexture noiseTexture st e)).
Proof.
  destruct e as [scene|texture|m|delta|scene]; simpl.
  - apply patchEffect_evolves.
  - apply fold_alter_evolves. intros. apply retarget_evolves.
  - apply compile_evolves.
  - apply (fold_alter_evolves (fun _ => Model.advance delta)).
    intros. apply advance_evolves.
  - unfold AutoFrame.autoFrame. destruct (Model.groupRef st); apply heap_evolves_refl.
Qed.

Lemma run_evolves st evs :
  hev (Model.heap st)
      (Model.heap (Session.run fallbackTexture noiseTexture st evs)).
Proof.
  unfold Session.run. revert st. induction evs as [|e evs IH]; intros st; simpl.
  - apply heap_evolves_refl.
  - eapply heap_evolves_trans; [apply step_evolves|apply IH].
Qed.
End Evolution.

(** No effect or callback of [Model] ever writes a material's [map]: the
    override texture lives in the uniforms only.  Whatever happens to a
    mounted [Model], every material object is still there with the map it
    was loaded with, and a [metalness] or [roughness] the model defines is
    kept; no material object is created. *)
Theorem authored_material_preserved
    (fallbackTexture noiseTexture : TextureId)
    (h : gmap MaterialId Material) (evs : list Session.Event) (k : MaterialId) :
  let st := Session.run fallbackTexture noiseTexture (Model.mounted h) evs in
  (forall mat0, h !! k = Some mat0 ->
     exists mat, Model.heap st !! k = Some mat /\ map mat = map mat0
       /\ (forall v, metalness mat0 = Some v -> metalness mat = Some v)
       /\ (forall v, roughness mat0 = Some v -> roughness mat = Some v))
  /\ (h !! k = None -> Model.heap st !! k = None).
Proof.
  intros st.
  pose proof (run_evolves fallbackTexture noiseTexture (Model.mounted h) evs k) as Hk.
  fold st in Hk. simpl in Hk. split.
  - intros mat0 H0. rewrite H0 in Hk. inversion Hk as [? mat Hev|]; subst.
    exists mat. destruct Hev as (Hm & Hme & Hr & _). done.
  - intros H0. rewrite H0 in Hk. by inversion Hk.
Qed.

Lemma authored_material_preserved_witness :
  let h : gmap MaterialId Material := <[10 := freshMaterial (Some 1)]> ∅ in
  let st := Session.run 0 1 (Model.mounted h)
              [Session.Patch (Obj [Mesh 1 (Single 10) [] []]);
               Session.TextureChanged (Some 5); Session.Compiled 10; Session.Frame 1] in
  exists mat, Model.heap st !! 10 = Some mat /\ map mat = Some 1.
Proof.
  intros h st.
  destruct (authored_material_preserved 0 1 h
              [Session.Patch (Obj [Mesh 1 (Single 10) [] []]);
               Session.TextureChanged (Some 5); Session.Compiled 10; Session.Frame 1] 10)
    as [Hkeep _].
  destruct (Hkeep (freshMaterial (Some 1)) eq_refl) as (mat & Hm & Hmap & _).
  by exists mat.
Defined.

Lemma hook_state
    (fallbackTexture noiseTexture : TextureId)
    (h : gmap MaterialId Material) (evs : list Session.Event)
    (k : MaterialId) (mat : Material) :
  map_Forall (fun _ m => unpatched m) h ->
  Model.heap (Session.run fallbackTexture noiseTexture (Model.mounted h) evs) !! k
    = Some mat ->
  (patched mat = false /\ hookInstalls mat = 0 /\ onBeforeCompile mat = None)
  \/ (patched mat = true /\ hookInstalls mat = 1
      /\ onBeforeCompile mat = Some (mkHook k fallbackTexture noiseTexture)).
Proof.
  intros Hfresh Hmat.
  pose proof (run_evolves fallbackTexture noiseTexture (Model.mounted h) evs k) as Hk.
  rewrite Hmat in Hk. simpl in Hk.
  inversion Hk as [mat0 ? Hev H0|]; subst.
  symmetry in H0. destruct (Hfresh k mat0 H0) as (P0 & I0 & O0).
  destruct Hev as (_ & _ & _ & _ & [(P & I & O)|(_ & P & I & O)]).
  - left. repeat split; congruence.
  - right. repeat split; congruence.
Qed.

(** Over the whole life of a mounted [Model] -- any scenes patched, in any
    order and any number of times, textures changed, programs compiled,
    frames rendered -- a material that was loaded unmarked has its hook
    assigned at most once; it carries the marker exactly when the hook is
    assigned, and the hook is then the closure over that very material and
    the component's fallback and noise textures. *)
Theorem hook_installed_at_most_once
    (fallbackTexture noiseTexture : TextureId)
    (h : gmap MaterialId Material) (evs : list Session.Event)
    (k : MaterialId) (mat : Material) :
  map_Forall (fun _ m => unpatched m) h ->
  Model.heap (Session.run fallbackTexture noiseTexture (Model.mounted h) evs) !! k
    = Some mat ->
  (patched mat = false /\ hookInstalls mat = 0 /\ onBeforeCompile mat = None)
  \/ (patched mat = true /\ hookInstalls mat = 1
      /\ onBeforeCompile mat = Some (mkHook k fallbackTexture noiseTexture)).
Proof. apply hook_state. Qed.

Lemma hook_installed_at_most_once_witness :
  let h : gmap MaterialId Material := <[10 := freshMaterial (Some 1)]> ∅ in
  let sceneA := Obj [Mesh 1 (Single 10) [] [Mesh 2 (Multi [10; 10]) [] []]] in
  let st := Session.run 0 1 (Model.mounted h)
              [Session.Patch sceneA; Session.TextureChanged (Some 5);
               Session.Patch sceneA; Session.Compiled 10; Session.Patch sceneA] in
  exists mat, Model.heap st !! 10 = Some mat /\ hookInstalls mat = 1.
Proof.
  intros h sceneA st.
  destruct (Model.heap st !! 10) as [mat|] eqn:Hmat;
    [|vm_compute in Hmat; discriminate].
  exists mat. split; [reflexivity|].
  destruct (hook_installed_at_most_once 0 1 h
              [Session.Patch sceneA; Session.TextureChanged (Some 5);
               Session.Patch sceneA; Session.Compiled 10; Session.Patch sceneA]
              10 mat) as [(P & _)|(_ & I & _)].
  - apply map_Forall_insert_2; [by repeat split|apply map_Forall_empty].
  - exact Hmat.
  - vm_compute in Hmat. injection Hmat as <-. discriminate.
  - exact I.
Defined.

(** When the renderer compiles a material, the hook [Model] installed on
    it captures uniforms that show the material's own map (the white
    fallback when it has none) on both sides of the blend, with [uMix] at 1
    and the shared noise map; it does not touch the progress or the
    recorded current map, so a texture applied before the first compile is
    not in the captured uniforms.  Compiling an unmarked material changes
    nothing. *)
Theorem compile_captures_own_map
    (fallbackTexture noiseTexture : TextureId)
    (h : gmap MaterialId Material) (evs : list Session.Event)
    (k : MaterialId) (mat : Material) :
  map_Forall (fun _ m => unpatched m) h ->
  let st := Session.run fallbackTexture noiseTexture (Model.mounted h) evs in
  let st' := Model.compile k st in
  Model.heap st !! k = Some mat ->
  (patched mat = false -> st' = st)
  /\ (patched mat = true ->
      exists mat', Model.heap st' !! k = Some mat'
        /\ blendUniforms mat' =
             Some (mkUniforms (nullish (map mat) fallbackTexture)
                              (nullish (map mat) fallbackTexture) noiseTexture 1)
        /\ transitionProgress mat' = transitionProgress mat
        /\ currentMap mat' = currentMap mat
        /\ map mat' = map mat).
Proof.
  intros Hfresh st st' Hmat.
  destruct (hook_state fallbackTexture noiseTexture h evs k mat Hfresh Hmat)
    as [(P & _ & O)|(P & _ & O)].
  - split; [|congruence]. intros _. unfold st', Model.compile.
    fold st. by rewrite Hmat, O.
  - split; [congruence|]. intros _. unfold st', Model.compile.
    fold st. rewrite Hmat, O. simpl. unfold Model.runHook. simpl. rewrite Hmat.
    rewrite lookup_insert_eq. eexists. split; [done|]. done.
Qed.

Lemma compile_captures_own_map_witness :
  let h : gmap MaterialId Material := <[10 := freshMaterial None]> ∅ in
  let st := Session.run 0 1 (Model.mounted h)
              [Session.Patch (Obj [Mesh 1 (Single 10) [] []]);
               Session.TextureChanged (Some 5)] in
  exists mat', Model.heap (Model.compile 10 st) !! 10 = Some mat'
    /\ blendUniforms mat' = Some (mkUniforms 0 0 1 1)
    /\ currentMap mat' = Some 5.
Proof.
  intros h st.
  destruct (compile_captures_own_map 0 1 h
              [Session.Patch (Obj [Mesh 1 (Single 10) [] []]);
               Session.TextureChanged (Some 5)] 10
              (Model.retarget 0 (Some 5) (<[10 := None]> ∅) 10
                 (patchOnce 0 1 10 (freshMaterial None))))
    as [_ Hp].
  - apply map_Forall_insert_2; [by repeat split|apply map_Forall_empty].
  - vm_compute. reflexivity.
  - destruct (Hp eq_refl) as (mat' & Hm & Hu & _ & Hc & _).
    exists mat'. split; [exact Hm|]. split; [exact Hu|]. exact Hc.
Defined.

(** The idle rotation: over any run of frames the group turns about its
    vertical axis by 0.15 times the elapsed time in total, and nothing else
    of the group changes -- not its position or scale, which the auto-frame
    step set, nor the other two angles.  Without a group the frames leave
    the ref empty. *)
Theorem idle_rotation_accumulates (ds : list Q) (st : Model.State) :
  match Model.groupRef st with
  | Some g =>
      exists g', Model.groupRef (Model.frames ds st) = Some g'
        /\ position g' = position g /\ scale g' = scale g
        /\ vx (rotation g') = vx (rotation g) /\ vz (rotation g') = vz (rotation g)
        /\ (vy (rotation g') == vy (rotation g) + totalTime ds * 0.15)%Q
  | None => Model.groupRef (Model.frames ds st) = None
  end.
Proof.
  unfold Model.frames. revert st. induction ds as [|d ds IH]; intros st.
  - simpl. destruct (Model.groupRef st) as [g|]; [|done].
    exists g. repeat split; try done. simpl. lra.
  - cbn [foldl]. specialize (IH (Model.useFrame d st)).
    simpl in IH. destruct (Model.groupRef st) as [g|]; simpl in IH; [|done].
    destruct IH as (g' & Hg' & Hp & Hs & Hx & Hz & Hy).
    exists g'. split; [done|]. repeat split; try done.
    rewrite Hy. simpl. lra.
Qed.

(** ** The refs and the texture-change effect *)

Section RefsFacts.
Variables fallbackTexture noiseTexture : TextureId.

Lemma patchMaterial_originalMaps_value st m k v :
  Model.originalMaps (Model.patchMaterial fallbackTexture noiseTexture st m) !! k = Some v ->
  Model.originalMaps st !! k = Some v
  \/ (k = m /\ exists mat, Model.heap st !! m = Some mat /\ v = map mat).
Proof.
  unfold Model.patchMaterial.
  destruct (Model.heap st !! m) as [mat|] eqn:Hm; simpl; [|auto].
  case_decide as Hin; [auto|].
  rewrite lookup_insert. case_decide as Hk; [|auto].
  intros [= <-]. right. split; [done|]. by exists mat.
Qed.

Lemma patchMaterial_refs_inv st m :
  refs_inv st -> refs_inv (Model.patchMaterial fallbackTexture noiseTexture st m).
Proof.
  intros Hinv k. split.
  - intros Hin. apply patchMaterial_refs in Hin. rewrite patchMaterial_originalMaps.
    rewrite patchMaterial_heap.
    destruct Hin as [Hin|[-> [mat Hmat]]].
    + destruct (Hinv k) as [HA _]. destruct (HA Hin) as (Hom & mat & Hmat & Hp).
      split; [by left|]. case_decide as Hk.
      * subst k. rewrite Hmat. eexists. split; [done|]. apply patchOnce_patched.
      * by exists mat.
    + split; [right; rewrite Hmat; eauto|]. rewrite decide_True by done.
      rewrite Hmat. eexists. split; [done|]. apply patchOnce_patched.
  - intros v Hv. rewrite patchMaterial_heap.
    apply patchMaterial_originalMaps_value in Hv as [Hv|(-> & mat & Hmat & ->)].
    + destruct (Hinv k) as [_ HB]. destruct (HB v Hv) as (mat & Hmat & Hmap).
      case_decide as Hk; [|by exists mat].
      subst k. rewrite Hmat. eexists. split; [done|].
      destruct (patchOnce_evolves fallbackTexture noiseTexture m mat) as (-> & _). done.
    + rewrite decide_True by done. rewrite Hmat. eexists. split; [done|].
      by destruct (patchOnce_evolves fallbackTexture noiseTexture m mat) as (-> & _).
Qed.

Lemma fold_patch_refs_inv ms st :
  refs_inv st -> refs_inv (foldl (Model.patchMaterial fallbackTexture noiseTexture) st ms).
Proof.
  revert st. induction ms as [|m ms IH]; intros st Hinv; simpl; [done|].
  by apply IH, patchMaterial_refs_inv.
Qed.

Lemma patchEffect_refs_inv scene st :
  refs_inv st -> refs_inv (Model.patchEffect fallbackTexture noiseTexture scene st).
Proof.
  intros Hinv. rewrite patchEffect_unfold.
  apply (fold_patch_refs_inv (sceneMaterials scene)) in Hinv. exact Hinv.
Qed.

Lemma refs_inv_evolves st st' :
  refs_inv st ->
  heap_evolves fallbackTexture noiseTexture (Model.heap st) (Model.heap st') ->
  Model.originalMaps st' = Model.originalMaps st ->
  Model.materialsRef st' = Model.materialsRef st ->
  refs_inv st'.
Proof.
  intros Hinv Hev Hom Hrefs k. rewrite Hom, Hrefs. specialize (Hev k).
  destruct (Hinv k) as [HA HB]. split.
  - intros Hin. destruct (HA Hin) as (Hs & mat & Hmat & Hp). split; [done|].
    rewrite Hmat in Hev. inversion Hev as [? mat' Hk|]; subst.
    exists mat'. split; [done|].
    destruct Hk as (_ & _ & _ & _ & [(-> & _)|(_ & -> & _)]); done.
  - intros v Hv. destruct (HB v Hv) as (mat & Hmat & Hmap).
    rewrite Hmat in Hev. inversion Hev as [? mat' Hk|]; subst.
    exists mat'. split; [done|]. by destruct Hk as (-> & _).
Qed.

Lemma compile_originalMaps m st :
  Model.originalMaps (Model.compile m st) = Model.originalMaps st.
Proof.
  unfold Model.compile. destruct (Model.heap st !! m) as [mat|]; [|done].
  by destruct (onBeforeCompile mat).
Qed.

Lemma step_refs_inv st e :
  refs_inv st -> refs_inv (Session.step fallbackTexture noiseTexture st e).
Proof.
  intros Hinv. destruct e as [scene|texture|m|delta|scene].
  - by apply patchEffect_refs_inv.
  - eapply refs_inv_evolves; [done| |done|done].
    apply (step_evolves _ _ st (Session.TextureChanged texture)).
  - eapply refs_inv_evolves; [done| | |].
    + apply (step_evolves _ _ st (Session.Compiled m)).
    + apply compile_originalMaps.
    + apply compile_refs.
  - eapply refs_inv_evolves; [done| |done|done].
    apply (step_evolves _ _ st (Session.Frame delta)).
  - eapply refs_inv_evolves; [done| | |].
    + apply (step_evolves _ _ st (Session.AutoFramed scene)).
    + simpl. unfold AutoFrame.autoFrame. by destruct (Model.groupRef st).
    + apply autoFrame_refs.
Qed.

Lemma run_refs_inv h evs :
  refs_inv (Session.run fallbackTexture noiseTexture (Model.mounted h) evs).
Proof.
  assert (H0 : refs_inv (Model.mounted h)).
  { intros k. simpl. split.
    - intros Hin. by apply not_elem_of_nil in Hin.
    - intros v Hv. by rewrite lookup_empty in Hv. }
  revert H0. generalize (Model.mounted h). unfold Session.run.
  induction evs as [|e evs IH]; intros st Hinv; simpl; [done|].
  by apply IH, step_refs_inv.
Qed.
End RefsFacts.

(** A texture change retargets every listed material.  Its recorded
    original map is the map the material was loaded with.  The new current
    map is the selected texture, or -- when the selection is cleared -- the
    authored map, or the white fallback for a material without map; the
    progress is reset to 0; and captured uniforms blend from what was
    current before (so a chain of changes always starts from the texture
    the previous change ended on) to the new current map, with [uMix] 0. *)
Theorem texture_change_targets
    (fallbackTexture noiseTexture : TextureId)
    (h : gmap MaterialId Material) (evs : list Session.Event)
    (texture : option TextureId) (k : MaterialId) :
  let st := Session.run fallbackTexture noiseTexture (Model.mounted h) evs in
  let st' := Model.textureEffect fallbackTexture texture st in
  k ∈ Model.materialsRef st ->
  exists mat0 mat mat',
    h !! k = Some mat0 /\ Model.heap st !! k = Some mat
    /\ Model.heap st' !! k = Some mat'
    /\ Model.originalMaps st !! k = Some (map mat0)
    /\ currentMap mat' = Some (nullish texture (nullish (map mat0) fallbackTexture))
    /\ transitionProgress mat' = Some 0%Q
    /\ blendUniforms mat' =
        (fun u => mkUniforms
                    (nullish (currentMap mat) (nullish (map mat0) fallbackTexture))
                    (nullish texture (nullish (map mat0) fallbackTexture))
                    (uNoiseMap u) 0)
        <$> blendUniforms mat.
Proof.
  intros st st' Hk.
  pose proof (run_refs_inv fallbackTexture noiseTexture h evs k) as [HA HB].
  fold st in HA, HB.
  destruct (HA Hk) as ([v Hv] & mat & Hmat & _).
  destruct (HB v Hv) as (mat2 & Hmat2 & Hmap). rewrite Hmat in Hmat2.
  injection Hmat2 as <-.
  pose proof (run_evolves fallbackTexture noiseTexture (Model.mounted h) evs k) as Hev.
  fold st in Hev. rewrite Hmat in Hev. simpl in Hev.
  inversion Hev as [mat0 ? Hk0 H0|]; subst.
  destruct Hk0 as (Hm0 & _).
  assert (Hnd : NoDup (Model.materialsRef st)).
  { apply run_NoDup. simpl. apply NoDup_nil_2. }
  exists mat0, mat, (Model.retarget fallbackTexture texture (Model.originalMaps st) k mat).
  split; [done|]. split; [done|].
  split; [unfold st'; by rewrite textureEffect_heap, decide_True, Hmat|].
  split; [by rewrite Hv, Hm0|].
  unfold Model.retarget. rewrite Hv. simpl. rewrite Hm0.
  split; [done|]. split; [done|]. by destruct (blendUniforms mat).
Qed.

Lemma texture_change_targets_witness :
  let h : gmap MaterialId Material := <[10 := freshMaterial (Some 1)]> ∅ in
  let evs := [Session.Patch (Obj [Mesh 1 (Single 10) [] []]); Session.Compiled 10;
              Session.TextureChanged (Some 5)] in
  let st' := Model.textureEffect 0 None (Session.run 0 1 (Model.mounted h) evs) in
  exists mat', Model.heap st' !! 10 = Some mat'
    /\ currentMap mat' = Some 1
    /\ blendUniforms mat' = Some (mkUniforms 5 1 1 0).
Proof.
  intros h evs st'.
  destruct (texture_change_targets 0 1 h evs None 10)
    as (mat0 & mat & mat' & H0 & Hm & Hm' & _ & Hc & _ & Hu).
  - vm_compute. apply list_elem_of_here.
  - exists mat'. split; [exact Hm'|].
    vm_compute in H0. injection H0 as <-.
    vm_compute in Hm. injection Hm as <-.
    split; [exact Hc|exact Hu].
Defined.








(** ** More on the auto-frame step *)

(** The step on a group that already carries a uniform positive scale. *)
Lemma normalize_under_scale scene g s0 :
  scale g = Vec.setScalar s0 -> (0 < s0)%Q ->
  let E := Box3.maxAxis (Box3.setFromPoints (sceneCorners scene)) in
  let g' := AutoFrame.normalize scene g in
  Vec.eqv (Box3.getCenter (Box3.setFromObject g' scene)) Vec.zero
  /\ ((0 < E)%Q ->
      scale g' = Vec.setScalar (2.4 / Box3.maxAxis (Box3.setFromObject g scene))
      /\ (0 < 2.4 / Box3.maxAxis (Box3.setFromObject g scene))%Q
      /\ (Box3.maxAxis (Box3.setFromObject g' scene) * s0 == 2.4)%Q)
  /\ ((E == 0)%Q ->
      scale g' = Vec.setScalar 1
      /\ (Box3.maxAxis (Box3.setFromObject g' scene) == 0)%Q).
Proof.
  intros Hsc Hs0 E g'.
  set (M := Box3.maxAxis (Box3.setFromObject g scene)).
  assert (HM : (M == E * s0)%Q) by (apply maxAxis_world; [done|lra]).
  assert (HE : (0 <= E)%Q) by apply maxAxis_nonneg.
  set (s := if Qltb 0 M then (2.4 / M)%Q else 1%Q).
  assert (Hs : (0 <= s)%Q).
  { unfold s. destruct (Qltb 0 M) eqn:Hlt; [|lra].
    apply Qltb_lt in Hlt. apply Qle_shift_div_l; lra. }
  unfold g'.
  change (AutoFrame.normalize scene g) with
    {| position := Vec.sub (position g)
         (Box3.getCenter
            (Box3.setFromObject (mkGroup (position g) (rotation g) (Vec.setScalar s)) scene));
       rotation := rotation g; scale := Vec.setScalar s |}.
  set (c1 := Box3.getCenter
               (Box3.setFromObject (mkGroup (position g) (rotation g) (Vec.setScalar s))
                  scene)).
  set (g2 := mkGroup (Vec.sub (position g) c1) (rotation g) (Vec.setScalar s)).
  assert (Hext : (Box3.maxAxis (Box3.setFromObject g2 scene) == E * s)%Q)
    by by apply maxAxis_world.
  split; [|split].
  - destruct (Box3.setFromPoints (sceneCorners scene)) as [[lo hi]|] eqn:Hloc.
    + pose proof (center_world (mkGroup (position g) (rotation g) (Vec.setScalar s))
                    scene s lo hi eq_refl Hs Hloc) as H1.
      pose proof (center_world g2 scene s lo hi eq_refl Hs Hloc) as H2.
      fold c1 in H1. clearbody c1.
      unfold Box3.toWorld, Vec.eqv in H1, H2. simpl in H1, H2.
      destruct H1 as (X1 & Y1 & Z1), H2 as (X2 & Y2 & Z2).
      repeat split; simpl; lra.
    + rewrite (setFromObject_empty g2 scene Hloc). by repeat split.
  - intros Hpos.
    assert (HMpos : (0 < M)%Q).
    { rewrite HM. apply Qmult_lt_0_compat; lra. }
    assert (Hlt : Qltb 0 M = true) by by apply Qltb_lt.
    split; [unfold g2; simpl; unfold s; by rewrite Hlt|]. split.
    + apply Qlt_shift_div_l; lra.
    + rewrite Hext. unfold s. rewrite Hlt.
      assert (Hq : (E * (2.4 / M) * s0 == 2.4 * (E * s0) / M)%Q) by (field; lra).
      rewrite Hq, <- HM. field. lra.
  - intros Hzero.
    assert (HM0 : (M == 0)%Q) by (rewrite HM, Hzero; ring).
    assert (Hlt : Qltb 0 M = false) by (apply Qltb_ge; lra).
    split; [unfold g2; simpl; unfold s; by rewrite Hlt|].
    rewrite Hext, Hzero. ring.
Qed.

(** The step measures the hierarchy under the scale the group already
    has and then replaces that scale.  On a group with uniform scale [s0]
    a model of positive extent therefore comes out with largest extent
    [2.4 / s0], not 2.4; its box is centred at the origin all the same. *)
Theorem autoFrame_under_prior_scale
    (scene : Object3D) (st : Model.State) (g : Group) (s0 : Q) :
  Model.groupRef st = Some g -> scale g = Vec.setScalar s0 -> (0 < s0)%Q ->
  (0 < Box3.maxAxis (Box3.setFromPoints (sceneCorners scene)))%Q ->
  let B := AutoFrame.framedBox scene st in
  Vec.eqv (Box3.getCenter B) Vec.zero /\ (Box3.maxAxis B * s0 == 2.4)%Q.
Proof.
  intros Hg Hsc Hs0 HE B.
  destruct (normalize_under_scale scene g s0 Hsc Hs0) as (Hc & Hpos & _).
  unfold B, AutoFrame.framedBox, AutoFrame.autoFrame. rewrite Hg. simpl.
  split; [exact Hc|]. by destruct (Hpos HE) as (_ & _ & ?).
Qed.

Lemma autoFrame_under_prior_scale_witness :
  let cube := Obj [Mesh 1 (Single 10) [vec3 0 0 0; vec3 1 1 1] []] in
  let st := Model.set_groupRef
              (Some (mkGroup (vec3 1 2 3) Vec.zero (Vec.setScalar 2))) (Model.mounted ∅) in
  (Box3.maxAxis (AutoFrame.framedBox cube st) * 2 == 2.4)%Q.
Proof.
  intros cube st.
  apply (autoFrame_under_prior_scale cube st
           (mkGroup (vec3 1 2 3) Vec.zero (Vec.setScalar 2)) 2).
  - reflexivity.
  - reflexivity.
  - lra.
  - vm_compute. reflexivity.
Defined.



(** ** More on the patched colour stage *)

Lemma clamp_ge_1 t : (1 <= t)%Q -> (Shader.clamp t 0 1 == 1)%Q.
Proof.
  intros Ht. unfold Shader.clamp.
  rewrite Q.max_l by lra. by rewrite Q.min_r.
Qed.

Lemma clamp_le_0 t : (t <= 0)%Q -> (Shader.clamp t 0 1 == 0)%Q.
Proof.
  intros Ht. unfold Shader.clamp.
  rewrite Q.max_r by done. rewrite Q.min_l; [reflexivity|lra].
Qed.

Lemma smoothstep_high e0 e1 x :
  (e0 < e1)%Q -> (e1 <= x)%Q -> (Shader.smoothstep e0 e1 x == 1)%Q.
Proof.
  intros He Hx. unfold Shader.smoothstep.
  rewrite clamp_ge_1; [ring|]. apply Qle_shift_div_l; lra.
Qed.

Lemma smoothstep_low e0 e1 x :
  (e0 < e1)%Q -> (x <= e0)%Q -> (Shader.smoothstep e0 e1 x == 0)%Q.
Proof.
  intros He Hx. unfold Shader.smoothstep.
  rewrite clamp_le_0; [ring|]. apply Qle_shift_div_r; lra.
Qed.

(** The weight of the next map lies in [0, 1] and is never below the
    clamped blend factor.  It is decided by the noise alone outside a band
    of 0.2 around the factor: a fragment whose noise is at least the factor
    plus 0.2 shows the next map in full -- at blend factor 0, the start of a
    transition, that is every fragment with noise 0.2 or more -- and a
    fragment whose noise is at most the factor minus 0.2 gets exactly the
    factor. *)
Theorem blend_bounds_and_thresholds (uMix noise : Q) :
  let m := Shader.clamp uMix 0 1 in
  let blend := Shader.blendOf uMix noise in
  (0 <= m)%Q /\ (m <= blend)%Q /\ (blend <= 1)%Q
  /\ ((m + 0.2 <= noise)%Q -> (blend == 1)%Q)
  /\ ((noise <= m - 0.2)%Q -> (blend == m)%Q).
Proof.
  intros m blend. unfold blend, Shader.blendOf. fold m.
  destruct (clamp_bounds uMix) as [H0 H1]. fold m in H0, H1.
  pose proof (smoothstep_le_1 (m - 0.2) (m + 0.2) noise) as Hle.
  split; [done|]. split; [apply Q.le_max_r|].
  split; [by apply Q.max_lub|]. split.
  - intros Hn. rewrite smoothstep_high by lra. by apply Q.max_l.
  - intros Hn. rewrite smoothstep_low by lra. by apply Q.max_r.
Qed.

Lemma blend_bounds_and_thresholds_witness :
  (Shader.blendOf 0 0.2 == 1)%Q /\ (Shader.blendOf 0.5 0.25 == Shader.clamp 0.5 0 1)%Q.
Proof.
  destruct (blend_bounds_and_thresholds 0 0.2) as (_ & _ & _ & Hhigh & _).
  destruct (blend_bounds_and_thresholds 0.5 0.25) as (_ & _ & _ & _ & Hlow).
  split.
  - apply Hhigh. vm_compute. discriminate.
  - apply Hlow. vm_compute. discriminate.
Defined.

(** Where the previous and the next map sample the same colour the stage
    multiplies the base colour by that colour whatever the blend factor and
    the noise are: a patched material whose texture has not changed renders
    as the unpatched map stage would. *)
Theorem equal_maps_render_unblended
    (uPrevMap uNextMap uNoiseMap : Q * Q -> Shader.vec4)
    (uMix : Q) (vMapUv : Q * Q) (diffuseColor : Shader.vec4) :
  Shader.eqv (uPrevMap vMapUv) (uNextMap vMapUv) ->
  Shader.eqv
    (Shader.map_fragment uPrevMap uNextMap uNoiseMap true uMix vMapUv diffuseColor)
    (Shader.mul diffuseColor (uNextMap vMapUv)).
Proof.
  intros (Hr & Hg & Hb & Ha).
  unfold Shader.map_fragment, Shader.eqv, Shader.mul, Shader.mix, Shader.mix1. simpl.
  rewrite Hr, Hg, Hb, Ha. repeat split; ring.
Qed.

Lemma equal_maps_render_unblended_witness :
  let tex := fun _ : Q * Q => Shader.mkVec4 0.5 0.25 1 1 in
  let noise := fun uv : Q * Q => Shader.mkVec4 (fst uv) 0 0 1 in
  let base := Shader.mkVec4 1 0.5 0.5 1 in
  Shader.eqv (Shader.map_fragment tex tex noise true 0.3 (0.1, 0.7)%Q base)
             (Shader.mul base (tex (0.1, 0.7)%Q)).
Proof.
  intros tex noise base.
  apply (equal_maps_render_unblended tex tex noise 0.3 (0.1, 0.7)%Q base).
  by repeat split.
Defined.

(** ** The noise texture *)

Lemma toUint8_bounds q :
  (0 <= q)%Q -> (q < 255)%Q -> (0 <= Noise.toUint8 q <= 254)%Z.
Proof.
  unfold Qle, Qlt, Noise.toUint8. destruct q as [n d]. simpl. intros H0 H1.
  assert (Hn : (0 <= n)%Z) by lia.
  rewrite Z.quot_div_nonneg by lia.
  assert (Hq : (0 <= n / Z.pos d < 255)%Z).
  { split; [apply Z.div_pos; lia|]. apply Z.div_lt_upper_bound; lia. }
  rewrite Z.mod_small by lia. lia.
Qed.

Lemma writeTexel_length random data i :
  length (Noise.writeTexel random data i) = length data.
Proof. unfold Noise.writeTexel. by rewrite !length_insert. Qed.

Lemma writeTexel_other random data i j :
  (j < i * 4 \/ i * 4 + 4 <= j) ->
  Noise.writeTexel random data i !! j = data !! j.
Proof.
  intros Hj. unfold Noise.writeTexel.
  rewrite !list_lookup_insert_ne by lia. done.
Qed.

Lemma writeTexel_here random data i :
  i * 4 + 4 <= length data ->
  let v := Noise.toUint8 (random i * 255) in
  Noise.writeTexel random data i !! (i * 4) = Some v
  /\ Noise.writeTexel random data i !! (i * 4 + 1) = Some v
  /\ Noise.writeTexel random data i !! (i * 4 + 2) = Some v
  /\ Noise.writeTexel random data i !! (i * 4 + 3) = Some 255%Z.
Proof.
  intros Hlen v. unfold Noise.writeTexel. fold v.
  repeat split.
  - rewrite !list_lookup_insert_ne by lia.
    rewrite Nat.add_0_r. apply list_lookup_insert_eq. lia.
  - rewrite !list_lookup_insert_ne by lia.
    apply list_lookup_insert_eq. rewrite length_insert. lia.
  - rewrite list_lookup_insert_ne by lia.
    apply list_lookup_insert_eq. rewrite !length_insert. lia.
  - apply list_lookup_insert_eq. rewrite !length_insert. lia.
Qed.

Lemma noise_loop random n k :
  k <= n ->
  let data := foldl (Noise.writeTexel random) (replicate (n * 4) 0%Z) (seq 0 k) in
  length data = n * 4
  /\ forall i, i < k ->
       let v := Noise.toUint8 (random i * 255) in
       data !! (i * 4) = Some v /\ data !! (i * 4 + 1) = Some v
       /\ data !! (i * 4 + 2) = Some v /\ data !! (i * 4 + 3) = Some 255%Z.
Proof.
  induction k as [|k IH]; intros Hk.
  - simpl. split; [apply length_replicate|]. lia.
  - destruct (IH ltac:(lia)) as [Hlen Hall].
    rewrite seq_S, foldl_snoc. simpl.
    set (data := foldl (Noise.writeTexel random) (replicate (n * 4) 0%Z) (seq 0 k)) in *.
    split; [by rewrite writeTexel_length|].
    intros i Hi. destruct (decide (i = k)) as [->|Hne].
    + apply writeTexel_here. lia.
    + destruct (Hall i ltac:(lia)) as (H0 & H1 & H2 & H3).
      rewrite !writeTexel_other by lia. done.
Qed.

(** The noise image is grey and opaque.  For every texel the loop stores
    the same byte in the red, green and blue channel -- the integer part of
    255 times the random number drawn for that texel, so never more than 254
    for a draw in [0, 1) -- and 255 in the alpha channel; the array has
    four bytes per texel and none is left unwritten. *)
Theorem noise_is_grey_and_opaque (size : nat) (random : nat -> Q) (i : nat) :
  i < size * size ->
  let data := Noise.noiseData size random in
  let v := Noise.toUint8 (random i * 255) in
  length data = size * size * 4
  /\ data !! (i * 4) = Some v /\ data !! (i * 4 + 1) = Some v
  /\ data !! (i * 4 + 2) = Some v /\ data !! (i * 4 + 3) = Some 255%Z
  /\ ((0 <= random i)%Q -> (random i < 1)%Q -> (0 <= v <= 254)%Z).
Proof.
  intros Hi data v.
  destruct (noise_loop random (size * size) (size * size) (le_n _)) as [Hlen Hall].
  destruct (Hall i Hi) as (H0 & H1 & H2 & H3).
  unfold data, Noise.noiseData. repeat split; try done;
    apply toUint8_bounds; lra.
Qed.

Lemma noise_is_grey_and_opaque_witness :
  let random := fun i : nat => (inject_Z (Z.of_nat i) / 4)%Q in
  let data := Noise.noiseData 2 random in
  data !! 8 = Some 127%Z /\ data !! 9 = Some 127%Z /\ data !! 10 = Some 127%Z
  /\ data !! 11 = Some 255%Z /\ length data = 16.
Proof.
  intros random data.
  destruct (noise_is_grey_and_opaque 2 random 2) as (Hl & H0 & H1 & H2 & H3 & _).
  - simpl. lia.
  - repeat split; assumption.
Defined.

(** ** The reset key in terms of the props *)

Lemma string_length_app (s t : string) :
  String.length (s +:+ t) = String.length s + String.length t.
Proof. induction s as [|a s IH]; simpl; [done|]. by rewrite IH. Qed.

Lemma string_app_inj_r (s1 s2 t : string) : s1 +:+ t = s2 +:+ t -> s1 = s2.
Proof.
  revert s2. induction s1 as [|a s1 IH]; intros [|b s2] Heq; simpl in Heq.
  - done.
  - apply (f_equal String.length) in Heq. simpl in Heq.
    rewrite ?string_length_app in Heq. simpl in Heq. lia.
  - apply (f_equal String.length) in Heq. simpl in Heq.
    rewrite ?string_length_app in Heq. simpl in Heq. lia.
  - injection Heq as -> Heq. f_equal. by apply IH.
Qed.

Lemma canvasKey_inj_model m m' t :
  Boundary.canvasKey m t = Boundary.canvasKey m' t -> m = m'.
Proof.
  unfold Boundary.canvasKey. intros Heq.
  apply (string_app_inj_r m m' ("-" +:+ nullish t "none")). exact Heq.
Qed.

Lemma canvasKey_inj_texture m t t' :
  Boundary.canvasKey m t = Boundary.canvasKey m t' ->
  nullish t "none" = nullish t' "none".
Proof.
  unfold Boundary.canvasKey. intros Heq.
  apply (inj (String.app m)) in Heq. by injection Heq.
Qed.

(** A failed boundary gets a new attempt whenever [ModelCanvas] is handed
    another model url with the texture unchanged, or another texture url
    with the model unchanged (a null texture counting as the text "none");
    a re-render with the same two props, as a sticker change causes, leaves
    the fallback notice in place. *)
Theorem prop_change_resets_boundary
    (st : Boundary.State) (m m' : string) (t t' : option string) :
  Boundary.failed st -> Boundary.resetKey st = Boundary.canvasKey m t ->
  (m' <> m -> Boundary.healthy (Boundary.step st (Boundary.Rerendered m' t)))
  /\ (nullish t' "none" <> nullish t "none" ->
      Boundary.healthy (Boundary.step st (Boundary.Rerendered m t')))
  /\ Boundary.failed (Boundary.step st (Boundary.Rerendered m t))
  /\ Boundary.render (Boundary.step st (Boundary.Rerendered m t)) = Boundary.Fallback.
Proof.
  intros Hf Hkey. unfold Boundary.healthy, Boundary.failed, Boundary.render.
  rewrite !step_rerendered_error, Hkey.
  split; [|split; [|split]].
  - intros Hne. rewrite decide_False; [done|].
    intros Heq. apply canvasKey_inj_model in Heq. congruence.
  - intros Hne. rewrite decide_False; [done|].
    intros Heq. apply canvasKey_inj_texture in Heq. congruence.
  - by rewrite decide_True.
  - rewrite decide_True by done. destruct Hf as [e ->]. done.
Qed.

Lemma prop_change_resets_boundary_witness :
  let st := Boundary.step (Boundary.constructor (Boundary.canvasKey "bad.glb" None))
              (Boundary.ChildThrew "404") in
  Boundary.healthy (Boundary.step st (Boundary.Rerendered "duck.glb" None))
  /\ Boundary.healthy (Boundary.step st (Boundary.Rerendered "bad.glb" (Some "uv.jpg")))
  /\ Boundary.failed (Boundary.step st (Boundary.Rerendered "bad.glb" None)).
Proof.
  intros st.
  assert (Hf : Boundary.failed st) by (unfold Boundary.failed; simpl; eauto).
  destruct (prop_change_resets_boundary st "bad.glb" "duck.glb" None (Some "uv.jpg")
              Hf eq_refl) as (Hm & Ht & Hsame & _).
  split; [apply Hm; discriminate|]. split; [apply Ht; discriminate|exact Hsame].
Defined.

Lemma clear_sticker_removes_decal_witness :
  let app := App.run App.init
               [App.StickerFile (Some (App.mkFile "star.png")) "blob:1";
                App.ScaleSlider 1.5] in
  let slot := Loader.run false (Loader.mount false None)
                [Loader.UrlProp (Some "blob:1")] in
  let app' := App.step app App.ClearSticker in
  let slot' := Loader.run false
                 (Loader.step false slot (Loader.UrlProp (App.stickerUrl app')))
                 [Loader.Loaded 0 7] in
  Decal.render (Loader.value slot') (Some (App.stickerTransform app'))
    (Model.set_stickerTargetRef (Some 1) (Model.mounted ∅)) = None
  /\ Decal.st_scale (App.stickerTransform app') = 1.5%Q.
Proof.
  intros app slot app' slot'.
  destruct (clear_sticker_removes_decal None [Loader.UrlProp (Some "blob:1")]
              [Loader.Loaded 0 7] app
              (Model.set_stickerTargetRef (Some 1) (Model.mounted ∅)))
    as (_ & Ht & Hd).
  - repeat constructor.
  - split; [exact Hd|].
    etrans; [exact (f_equal Decal.st_scale Ht)|by vm_compute].
Defined.

(** ** The sticker transform stays in range *)

Lemma withComponent_within lo hi a v t :
  (lo <= v /\ v <= hi)%Q -> vecWithin lo hi t ->
  vecWithin lo hi (App.withComponent a v t).
Proof.
  intros Hv (Hx & Hy & Hz). destruct a; unfold vecWithin; simpl; auto.
Qed.

Lemma handle_transform_in_range st ev :
  eventInRange ev -> transformInRange (App.stickerTransform st) ->
  transformInRange (App.stickerTransform (App.handle st ev)).
Proof.
  intros Hev (Hp & Hr & Hs).
  destruct ev as [[f|] u n|[f|] u n|[f|] u| | |a v|a v|v| | |];
    simpl in *; try exact (conj Hp (conj Hr Hs)).
  - split; [by apply withComponent_within|done].
  - split; [done|]. split; [by apply withComponent_within|done].
  - split; [exact Hp|]. split; [exact Hr|exact Hev].
  - unfold App.defaultStickerTransform, transformInRange, vecWithin. simpl.
    repeat split; lra.
Qed.

Lemma toRadians_within deg :
  (-180 <= deg)%Q -> (deg <= 180)%Q ->
  (- Math_PI <= Decal.toRadians deg /\ Decal.toRadians deg <= Math_PI)%Q.
Proof.
  intros Hlo Hhi.
  set (c := (Math_PI / 180)%Q).
  assert (Hc : (0 < c)%Q) by (by vm_compute).
  assert (Ht : (Decal.toRadians deg == deg * c)%Q)
    by (unfold Decal.toRadians, c; field).
  assert (Hpi : (Math_PI == 180 * c)%Q) by (unfold c; field).
  rewrite Ht, Hpi. clearbody c.
  assert (H1 : (-180 * c <= deg * c)%Q) by (apply Qmult_le_compat_r; lra).
  assert (H2 : (deg * c <= 180 * c)%Q) by (apply Qmult_le_compat_r; lra).
  split; lra.
Qed.

(** As long as every slider hands over a value inside the range it is
    declared with, the sticker transform of [App] stays inside the declared
    ranges -- position in [-1, 1], rotation in [-180, 180] degrees, scale in
    [0.1, 2] -- through uploads, selections, resets and clears, and the decal
    [Model] renders from it has its rotation in [-pi, pi] radians, at the
    transform's own position and scale. *)
Theorem sticker_transform_in_range
    (evs : list App.Event) (tex : TextureId) (model : Model.State) :
  Forall eventInRange evs ->
  let t := App.stickerTransform (App.run App.init evs) in
  transformInRange t
  /\ (forall props, Decal.render (Some tex) (Some t) model = Some props ->
      vecWithin (- Math_PI) Math_PI (Decal.d_rotation props)
      /\ Decal.d_position props = Decal.st_position t
      /\ Decal.d_scale props = Decal.st_scale t).
Proof.
  intros Hevs t.
  assert (Ht : transformInRange t).
  { unfold t. clear t.
    assert (H0 : transformInRange (App.stickerTransform App.init)).
    { unfold transformInRange, vecWithin. simpl. repeat split; lra. }
    revert H0. generalize App.init. unfold App.run.
    induction Hevs as [|ev evs Hev Hevs IH]; intros st H0; simpl; [done|].
    apply IH. unfold App.step.
    destruct (selectionEffect_lists (App.handle st ev)) as (_ & _ & _ & _ & -> & _).
    by apply handle_transform_in_range. }
  split; [done|]. intros props Hprops.
  unfold Decal.render in Hprops.
  destruct (Model.stickerTargetRef model) as [target|]; [|done].
  injection Hprops as <-.
  cbn [Decal.d_rotation Decal.d_position Decal.d_scale]. split; [|done].
  destruct Ht as (_ & ([? ?] & [? ?] & [? ?]) & _).
  unfold vecWithin. cbn [vx vy vz].
  split; [by apply toRadians_within|]. split; by apply toRadians_within.
Qed.

Lemma sticker_transform_in_range_witness :
  let evs := [App.RotationSlider App.AxisY 180; App.PositionSlider App.AxisX (-1);
              App.ScaleSlider 2] in
  transformInRange (App.stickerTransform (App.run App.init evs)).
Proof.
  intros evs.
  apply (sticker_transform_in_range evs 0 (Model.mounted ∅)).
  repeat constructor; simpl; lra.
Defined.
